(** * Pull-Time: a shallow embedding of [main.go]

    The development follows the Go source function by function.  Go strings
    are byte strings ([string] of Stdlib, one [ascii] per byte), [int] and
    [int64] are [Z] with the 64-bit wrap-around written out, [float64] is the
    primitive binary64 float, and the goroutines of the [benchmark] command
    are a transition system over an explicit scheduler state. *)

From Stdlib Require Import ZArith String Ascii List Bool Lia Floats.
From stdpp Require Import base list.

Open Scope string_scope.
Open Scope Z_scope.

(** ** Go strings *)

Definition byte_val (a : ascii) : Z := Z.of_N (N_of_ascii a).

(** A rune literal such as ['/'] in the source. *)
Definition rune (a : ascii) : Z := byte_val a.

(** The package [unicode/utf8], as far as [range] over a string and the
    scanner of [fmt] use it. *)
Module utf8.

Definition RuneError : Z := 0xFFFD.

(** What the first byte of an encoding announces: a single-byte rune, an
    invalid byte, or a sequence of [sz] bytes whose second byte lies in
    [lo..hi] (the table [first] with [acceptRanges]). *)
Inductive first_info :=
| FirstASCII
| FirstInvalid
| FirstLead (sz : nat) (lo hi : Z).

Definition first (b : Z) : first_info :=
  if b <? 0x80 then FirstASCII
  else if b <? 0xC2 then FirstInvalid
  else if b <? 0xE0 then FirstLead 2 0x80 0xBF
  else if b =? 0xE0 then FirstLead 3 0xA0 0xBF
  else if b <? 0xED then FirstLead 3 0x80 0xBF
  else if b =? 0xED then FirstLead 3 0x80 0x9F
  else if b <? 0xF0 then FirstLead 3 0x80 0xBF
  else if b =? 0xF0 then FirstLead 4 0x90 0xBF
  else if b <? 0xF4 then FirstLead 4 0x80 0xBF
  else if b =? 0xF4 then FirstLead 4 0x80 0x8F
  else FirstInvalid.

Definition locb : Z := 0x80.
Definition hicb : Z := 0xBF.
Definition maskx : Z := 0x3F.
Definition mask2 : Z := 0x1F.
Definition mask3 : Z := 0x0F.
Definition mask4 : Z := 0x07.

Definition in_range (lo hi b : Z) : bool := (lo <=? b) && (b <=? hi).

(** [DecodeRuneInString]: the rune at the head of [s] and its width in
    bytes; an invalid or truncated encoding is [RuneError] of width 1, the
    empty string [RuneError] of width 0. *)
Definition DecodeRuneInString (s : string) : Z * nat :=
  match s with
  | EmptyString => (RuneError, 0%nat)
  | String a0 t0 =>
    let s0 := byte_val a0 in
    match first s0 with
    | FirstASCII => (s0, 1%nat)
    | FirstInvalid => (RuneError, 1%nat)
    | FirstLead sz lo hi =>
      if (String.length s <? sz)%nat then (RuneError, 1%nat) else
      match t0 with
      | EmptyString => (RuneError, 1%nat)
      | String a1 t1 =>
        let s1 := byte_val a1 in
        if negb (in_range lo hi s1) then (RuneError, 1%nat) else
        if (sz <=? 2)%nat then
          (Z.lor (Z.shiftl (Z.land s0 mask2) 6) (Z.land s1 maskx), 2%nat)
        else
        match t1 with
        | EmptyString => (RuneError, 1%nat)
        | String a2 t2 =>
          let s2 := byte_val a2 in
          if negb (in_range locb hicb s2) then (RuneError, 1%nat) else
          if (sz <=? 3)%nat then
            (Z.lor (Z.lor (Z.shiftl (Z.land s0 mask3) 12)
                          (Z.shiftl (Z.land s1 maskx) 6))
                   (Z.land s2 maskx), 3%nat)
          else
          match t2 with
          | EmptyString => (RuneError, 1%nat)
          | String a3 _ =>
            let s3 := byte_val a3 in
            if negb (in_range locb hicb s3) then (RuneError, 1%nat) else
            (Z.lor (Z.lor (Z.lor (Z.shiftl (Z.land s0 mask4) 18)
                                 (Z.shiftl (Z.land s1 maskx) 12))
                          (Z.shiftl (Z.land s2 maskx) 6))
                   (Z.land s3 maskx), 4%nat)
          end
        end
      end
    end
  end.

End utf8.

(** ** Registry classification: [indexOf], [isOfficialDockerHub],
    [parseRegistry] *)

(** [for i, ch := range s]: the loop visits the runes of [s] with the byte
    offset [i] of each.  [skip] counts the bytes of the current rune that are
    still to be stepped over, so that the recursion is on the byte string. *)
Fixpoint indexOf_from (c : Z) (skip : nat) (i : Z) (s : string) : Z :=
  match s with
  | EmptyString => -1
  | String _ t =>
    match skip with
    | S k => indexOf_from c k (i + 1) t
    | O =>
      let '(ch, w) := utf8.DecodeRuneInString s in
      if ch =? c then i else indexOf_from c (Nat.pred w) (i + 1) t
    end
  end.

Definition indexOf (s : string) (c : Z) : Z := indexOf_from c 0 0 s.

Definition isOfficialDockerHub (image : string) : bool :=
  (indexOf image (rune ".") =? -1) && (indexOf image (rune ":") =? -1).

Definition parseRegistry (image : string) : string :=
  let idx := indexOf image (rune "/") in
  if (idx >? 0) && negb (isOfficialDockerHub image)
  then substring 0 (Z.to_nat idx) image
  else "docker.io".

(** ** Byte-string helpers *)

Fixpoint string_drop (n : nat) (s : string) : string :=
  match n, s with
  | O, _ => s
  | S k, String _ t => string_drop k t
  | S _, EmptyString => EmptyString
  end.

Definition nl : ascii := "010"%char.
Definition cr : ascii := "013"%char.

(** The package [fmt], as far as [Sscanf] goes.  A scan error is a panic
    that [errorHandler] recovers at the top of [doScanf]; here it is the
    [Panic] outcome of the scanner monad. *)
Module fmt.

Definition eof : Z := -1.
Definition hugeWid : Z := Z.shiftl 1 30.

(** The scanner state [ss] for a string source: [rs] is the unread input,
    [unread] the input as it was before the last rune read (what
    [UnreadRune] restores), [count] the number of runes consumed, [buf]
    the runes of the token under construction. *)
Record ss := mk_ss {
  rs : string;
  unread : string;
  count : Z;
  argLimit : Z;
  limit : Z;
  maxWid : Z;
  buf : list Z
}.

(** [Sscanf] scans with [nlIsSpace = false] and [nlIsEnd = false]. *)
Definition nlIsSpace : bool := false.

Definition newScanState (str : string) : ss :=
  {| rs := str; unread := str; count := 0; argLimit := hugeWid;
     limit := hugeWid; maxWid := hugeWid; buf := [] |}.

(** [ScanError] is any error a scan reports ([scanError], [io.EOF],
    [io.ErrUnexpectedEOF]); [NotModelled] marks the verbs of the library
    that [main.go] never uses and that are left out here, and is what a loop
    would answer if its fuel ran out (it never does, see [Sscanf_modelled]
    below). *)
Inductive failure := ScanError | NotModelled.

Inductive result (A : Type) :=
| Ret (a : A) (s : ss)
| Panic (e : failure).
Arguments Ret {A} a s.
Arguments Panic {A} e.

Definition M (A : Type) : Type := ss -> result A.

#[global] Instance M_ret : MRet M := fun A a s => Ret a s.
#[global] Instance M_bind : MBind M := fun A B k m s =>
  match m s with Ret a s' => k a s' | Panic e => Panic e end.
Definition ret {A} (a : A) : M A := mret a.
Definition errorString {A} : M A := fun _ => Panic ScanError.
Definition notModelled {A} : M A := fun _ => Panic NotModelled.

Definition space : list (Z * Z) :=
  [ (0x0009, 0x000d); (0x0020, 0x0020); (0x0085, 0x0085); (0x00a0, 0x00a0);
    (0x1680, 0x1680); (0x2000, 0x200a); (0x2028, 0x2029); (0x202f, 0x202f);
    (0x205f, 0x205f); (0x3000, 0x3000) ].

Fixpoint isSpace_in (rx : Z) (ranges : list (Z * Z)) : bool :=
  match ranges with
  | [] => false
  | (lo, hi) :: rest =>
    if rx <? lo then false
    else if rx <=? hi then true
    else isSpace_in rx rest
  end.

Definition isSpace (r : Z) : bool :=
  if r >=? Z.shiftl 1 16 then false else isSpace_in r space.

(** [ss.ReadRune] through [getRune]: [eof] once the argument limit is
    reached or the input is exhausted. *)
Definition getRune : M Z := fun s =>
  if count s >=? argLimit s then Ret eof s
  else
    match rs s with
    | EmptyString => Ret eof s
    | String _ _ =>
      let '(r, w) := utf8.DecodeRuneInString (rs s) in
      Ret r {| rs := string_drop w (rs s); unread := rs s;
               count := count s + 1; argLimit := argLimit s;
               limit := limit s; maxWid := maxWid s; buf := buf s |}
    end.

Definition UnreadRune : M unit := fun s =>
  Ret tt {| rs := unread s; unread := unread s; count := count s - 1;
            argLimit := argLimit s; limit := limit s; maxWid := maxWid s;
            buf := buf s |}.

Definition mustReadRune : M Z :=
  r ← getRune;
  if r =? eof then errorString else ret r.

Definition indexRune (s : string) (r : Z) : Z := indexOf s r.

Definition peek (ok : string) : M bool :=
  r ← getRune;
  (if negb (r =? eof) then UnreadRune else ret tt);;
  ret (indexRune ok r >=? 0).

Definition notEOF : M unit :=
  r ← getRune;
  if r =? eof then errorString else UnreadRune.

Definition writeRune (r : Z) : M unit := fun s =>
  Ret tt {| rs := rs s; unread := unread s; count := count s;
            argLimit := argLimit s; limit := limit s; maxWid := maxWid s;
            buf := buf s ++ [r] |}.

Definition consume (ok : string) (accept : bool) : M bool :=
  r ← getRune;
  if r =? eof then ret false
  else if indexRune ok r >=? 0 then
    (if accept then writeRune r else ret tt);; ret true
  else
    (if negb (r =? eof) && accept then UnreadRune else ret tt);; ret false.

Definition accept (ok : string) : M bool := consume ok true.

(** [SkipSpace]; every turn of its loop consumes a rune, so the length of
    the input bounds the number of turns. *)
Fixpoint SkipSpace_loop (fuel : nat) : M unit :=
  match fuel with
  | O => notModelled
  | S k =>
    r ← getRune;
    if r =? eof then ret tt
    else
      crlf ← (if r =? rune cr then peek (String nl "") else ret false);
      if crlf : bool then SkipSpace_loop k
      else if r =? rune nl then
        (if nlIsSpace then SkipSpace_loop k else errorString)
      else if negb (isSpace r) then UnreadRune
      else SkipSpace_loop k
  end.

Definition SkipSpace : M unit :=
  fun s => SkipSpace_loop (S (String.length (rs s))) s.

(** The inner loop [for isSpace(inputc) && inputc != '\n'] of [advance]:
    every turn but the last consumes a rune. *)
Fixpoint skip_blanks_loop (fuel : nat) (inputc : Z) : M Z :=
  if isSpace inputc && negb (inputc =? rune nl) then
    match fuel with
    | O => notModelled
    | S k => r ← getRune; skip_blanks_loop k r
    end
  else ret inputc.

Definition skip_blanks (inputc : Z) : M Z :=
  fun s => skip_blanks_loop (S (String.length (rs s))) inputc s.

(** The run of spaces at [format[i:]]: the offset after it, the number of
    newlines in it, and whether a space follows the last newline. *)
Fixpoint format_spaces (fuel : nat) (format : string) (i newlines : nat)
    (trailingSpace : bool) : nat * nat * bool :=
  match fuel with
  | O => (i, newlines, trailingSpace)
  | S k =>
    let '(fmtc, w) := utf8.DecodeRuneInString (string_drop i format) in
    if isSpace fmtc && (i <? String.length format)%nat then
      if fmtc =? rune nl
      then format_spaces k format (i + w) (S newlines) false
      else format_spaces k format (i + w) newlines true
    else (i, newlines, trailingSpace)
  end.

Fixpoint match_newlines (j : nat) : M unit :=
  match j with
  | O => ret tt
  | S k =>
    inputc ← getRune;
    inputc ← skip_blanks inputc;
    if negb (inputc =? rune nl) && negb (inputc =? eof)
    then errorString
    else match_newlines k
  end.

(** [advance]: match the literal text and the spaces at the head of
    [format] against the input.  The result is the number of format bytes
    matched, or [-1] when a literal does not match.  Every turn of the loop
    moves on in the format, so the length of the format is fuel enough. *)
Fixpoint advance_loop (fuel : nat) (format : string) (i : nat) : M Z :=
  if negb (i <? String.length format)%nat then ret (Z.of_nat i)
  else
    match fuel with
    | O => notModelled
    | S k =>
      let '(fmtc, w) := utf8.DecodeRuneInString (string_drop i format) in
      if isSpace fmtc then
        let '(i', newlines, trailingSpace) :=
          format_spaces (S (String.length format)) format i 0 false in
        match_newlines newlines;;
        (if trailingSpace then
           inputc ← getRune;
           (if (newlines =? 0)%nat then
              (if negb (isSpace inputc) && negb (inputc =? eof)
               then errorString else ret tt);;
              (if inputc =? rune nl then errorString else ret tt)
            else ret tt);;
           inputc ← skip_blanks inputc;
           if negb (inputc =? eof) then UnreadRune else ret tt
         else ret tt);;
        advance_loop k format i'
      else
        let literal (i : nat) : M Z :=
          inputc ← mustReadRune;
          if negb (fmtc =? inputc) then UnreadRune;; ret (-1)
          else advance_loop k format (i + w) in
        if fmtc =? rune "%" then
          if (i + w =? String.length format)%nat then errorString
          else
            let '(nextc, _) :=
              utf8.DecodeRuneInString (string_drop (i + w) format) in
            if negb (nextc =? rune "%") then ret (Z.of_nat i)
            else literal (i + w)%nat
        else literal i
    end.

Definition advance (format : string) : M Z :=
  advance_loop (String.length format) format 0.

Definition byte_at (s : string) (i : nat) : Z :=
  match String.get i s with
  | Some a => byte_val a
  | None => 0
  end.

Definition tooLarge (x : Z) : bool := (x >? 1000000) || (x <? -1000000).

Fixpoint parsenum_loop (fuel : nat) (s : string) (newi end_ : nat)
    (num : Z) (isnum : bool) : Z * bool * nat :=
  match fuel with
  | O => (num, isnum, newi)
  | S k =>
    if (newi <? end_)%nat && (rune "0" <=? byte_at s newi)
       && (byte_at s newi <=? rune "9")
    then
      if tooLarge num then (0, false, end_)
      else parsenum_loop k s (S newi) end_
             (num * 10 + (byte_at s newi - rune "0")) true
    else (num, isnum, newi)
  end.

Definition parsenum (s : string) (start end_ : nat) : Z * bool * nat :=
  if (end_ <=? start)%nat then (0, false, end_)
  else parsenum_loop (end_ - start) s start end_ 0 false.

Definition decimalDigits : string := "0123456789".
Definition sign : string := "+-".

Fixpoint accept_all (fuel : nat) (ok : string) : M unit :=
  match fuel with
  | O => notModelled
  | S k => b ← accept ok; if b : bool then accept_all k ok else ret tt
  end.

Definition accept_rest (digits : string) : M unit :=
  fun s => accept_all (S (String.length (rs s))) digits s.

Definition get_buf : M (list Z) := fun s => Ret (buf s) s.

Definition scanNumber (digits : string) (haveDigits : bool) : M (list Z) :=
  (if haveDigits then ret tt
   else notEOF;; b ← accept digits; if b : bool then ret tt else errorString);;
  accept_rest digits;;
  get_buf.

(** [strconv.ParseInt(tok, 10, 64)] on the runes of the token: an optional
    sign, at least one decimal digit, and a value within [int64]. *)
Fixpoint digits_value (acc : Z) (ds : list Z) : option Z :=
  match ds with
  | [] => Some acc
  | d :: t =>
    if (rune "0" <=? d) && (d <=? rune "9")
    then digits_value (acc * 10 + (d - rune "0")) t
    else None
  end.

Definition ParseInt10 (tok : list Z) : option Z :=
  let '(neg, ds) :=
    match tok with
    | c :: t =>
      if c =? rune "+" then (false, t)
      else if c =? rune "-" then (true, t)
      else (false, tok)
    | [] => (false, [])
    end in
  match ds with
  | [] => None
  | _ :: _ =>
    match digits_value 0 ds with
    | None => None
    | Some un =>
      let cutoff := Z.shiftl 1 63 in
      if neg then (if un >? cutoff then None else Some (- un))
      else (if un >=? cutoff then None else Some un)
    end
  end.

(** [scanInt(verb, 64)].  Of the integer verbs only [%d] is modelled. *)
Definition scanInt (verb : Z) : M Z :=
  if verb =? rune "c" then notModelled
  else
    SkipSpace;;
    notEOF;;
    (if indexRune "bdoUxXv" verb >=? 0 then ret tt else errorString);;
    if negb (verb =? rune "d") then notModelled
    else
      accept sign;;
      tok ← scanNumber decimalDigits false;
      match ParseInt10 tok with
      | Some i => ret i
      | None => errorString
      end.

Definition reset_buf : M unit := fun s =>
  Ret tt {| rs := rs s; unread := unread s; count := count s;
            argLimit := argLimit s; limit := limit s; maxWid := maxWid s;
            buf := [] |}.

(** [scanOne] for an operand of type [*int64]: the value to store. *)
Definition scanOne (verb : Z) : M Z :=
  reset_buf;;
  scanInt verb.

Definition scanPercent : M unit :=
  SkipSpace;;
  notEOF;;
  b ← accept "%";
  if b : bool then ret tt else errorString.

Definition set_maxWid (w : Z) (s : ss) : ss :=
  {| rs := rs s; unread := unread s; count := count s;
     argLimit := argLimit s; limit := limit s; maxWid := w; buf := buf s |}.

Definition set_argLimit (l : Z) (s : ss) : ss :=
  {| rs := rs s; unread := unread s; count := count s;
     argLimit := l; limit := limit s; maxWid := maxWid s; buf := buf s |}.

(** [doScanf] with [nargs] operands, all of type [*int64].  [stored] is
    the list of the values written through the operands so far, so that
    [numProcessed] is its length; an error ends the scan and leaves
    [numProcessed] as it is.  Every turn of the loop moves on in the format,
    so the length of the format is fuel enough. *)
Fixpoint doScanf_loop (fuel : nat) (format : string) (i nargs : nat)
    (stored : list Z) (s : ss) : list Z * option failure :=
  let finish :=
    if (length stored <? nargs)%nat then (stored, Some ScanError)
    else (stored, None) in
  if negb (i <? String.length format)%nat then finish
  else
    match fuel with
    | O => (stored, Some NotModelled)
    | S k =>
      match advance (string_drop i format) s with
      | Panic e => (stored, Some e)
      | Ret w s1 =>
        if w >? 0 then
          doScanf_loop k format (i + Z.to_nat w) nargs stored s1
        else if negb (byte_at format i =? rune "%") then
          if w <? 0 then (stored, Some ScanError) else finish
        else
          let '(wid, widPresent, i2) :=
            parsenum format (S i) (String.length format - 1) in
          let s2 := set_maxWid (if widPresent then wid else hugeWid) s1 in
          let '(c, w) := utf8.DecodeRuneInString (string_drop i2 format) in
          let i3 := (i2 + w)%nat in
          match (if negb (c =? rune "c") then SkipSpace else ret tt) s2 with
          | Panic e => (stored, Some e)
          | Ret _ s3 =>
            if c =? rune "%" then
              match scanPercent s3 with
              | Panic e => (stored, Some e)
              | Ret _ s4 => doScanf_loop k format i3 nargs stored s4
              end
            else
              let s4 :=
                set_argLimit (Z.min (limit s3) (count s3 + maxWid s3)) s3 in
              if (nargs <=? length stored)%nat then (stored, Some ScanError)
              else
                match scanOne c s4 with
                | Panic e => (stored, Some e)
                | Ret v s5 =>
                  doScanf_loop k format i3 nargs (stored ++ [v])
                    (set_argLimit (limit s5) s5)
                end
          end
      end
    end.

(** What a call of [Sscanf] leaves behind: [n], the number of operands
    filled in, their new values in order, and whether an error came with
    it. *)
Record scanned := mk_scanned {
  n : Z;
  values : list Z;
  err : option failure
}.

Definition Sscanf (str format : string) (nargs : nat) : scanned :=
  let '(stored, e) :=
    doScanf_loop (String.length format) format 0 nargs []
      (newScanState str) in
  {| n := Z.of_nat (length stored); values := stored; err := e |}.

End fmt.


(** ** Machine integers *)

(** [int64] arithmetic wraps around; [int] is 64 bits wide as well. *)
Definition wrap64 (z : Z) : Z := (z + 2 ^ 63) mod 2 ^ 64 - 2 ^ 63.

(** The conversion [float64(x)] of an integer: the nearest binary64 value,
    ties to even. *)
Definition float64_of_int (z : Z) : float :=
  SF2Prim (binary_normalize prec emax z 0 false).

(** ** The record [Result] *)

(** [Error], [Bytes], [Layers] and [CmdOutput] are tagged [omitempty]: the
    zero value of the field is what the JSON report leaves out. *)
Record Result := mkResult {
  Image : string;
  Registry : string;
  Success : bool;
  PullTimeMs : Z;
  StartTime : string;
  EndTime : string;
  Error : string;
  Bytes : Z;
  Layers : Z;
  CmdOutput : string
}.

Definition set_Error (e : string) (r : Result) : Result :=
  {| Image := Image r; Registry := Registry r; Success := Success r;
     PullTimeMs := PullTimeMs r; StartTime := StartTime r;
     EndTime := EndTime r; Error := e; Bytes := Bytes r;
     Layers := Layers r; CmdOutput := CmdOutput r |}.

Definition set_Bytes (b : Z) (r : Result) : Result :=
  {| Image := Image r; Registry := Registry r; Success := Success r;
     PullTimeMs := PullTimeMs r; StartTime := StartTime r;
     EndTime := EndTime r; Error := Error r; Bytes := b;
     Layers := Layers r; CmdOutput := CmdOutput r |}.

Definition set_Layers (l : Z) (r : Result) : Result :=
  {| Image := Image r; Registry := Registry r; Success := Success r;
     PullTimeMs := PullTimeMs r; StartTime := StartTime r;
     EndTime := EndTime r; Error := Error r; Bytes := Bytes r;
     Layers := l; CmdOutput := CmdOutput r |}.

(** A field is present in the JSON report when it is not the zero value. *)
Definition present (x : Z) : bool := negb (x =? 0).

(** ** Output scraping: [splitLines], [parseDockerOutput] *)

(** [strings.Split(s, "\n")]. *)
Fixpoint splitLines (s : string) : list string :=
  match s with
  | EmptyString => [EmptyString]
  | String a t =>
    if Ascii.eqb a nl then EmptyString :: splitLines t
    else
      match splitLines t with
      | l :: ls => String a l :: ls
      | [] => [String a EmptyString]
      end
  end.

(** The local variables [layers] and [bytes] of [parseDockerOutput] together
    with the record behind [res]. *)
Record scrape := mkScrape {
  layers : Z;
  bytes : Z;
  res : Result
}.

(** One turn of the loop over the lines. *)
Definition scrape_line (st : scrape) (line : string) : scrape :=
  if fmt.n (fmt.Sscanf line "Downloaded newer image for %*s" 0) >? 0 then st
  else
    let sc := fmt.Sscanf line "%dB" 1 in
    let bytes' :=
      match fmt.values sc with
      | v :: _ => v
      | [] => bytes st
      end in
    let res' := if fmt.n sc =? 1 then set_Bytes bytes' (res st) else res st in
    let layers' :=
      if fmt.n (fmt.Sscanf line "Pulling fs layer" 0) >? 0
      then wrap64 (layers st + 1)
      else layers st in
    {| layers := layers'; bytes := bytes'; res := res' |}.

Definition parseDockerOutput (r : Result) (output : string) : Result :=
  let st :=
    fold_left scrape_line (splitLines output)
      {| layers := 0; bytes := 0; res := r |} in
  if layers st >? 0 then set_Layers (layers st) (res st) else res st.

(** ** One pull of the benchmark command (lines 62 to 86) *)

(** What the goroutine observes of its environment during one pull: the
    combined output and the error of [cmd.CombinedOutput], the clock, and
    the context.  The body calls [ctx.Err()] three times (lines 73, 82 and
    83); the deadline timer runs beside the goroutine, and once it has fired
    every later call reports it.  [nil_reads] is the number of calls that
    still return [nil]: 3 or more when the deadline does not fire before the
    last call. *)
Record PullObs := mkPullObs {
  output : string;
  err : option string;
  elapsed_ms : Z;
  start_time : string;
  end_time : string;
  nil_reads : nat
}.

(** The text of [context.DeadlineExceeded]. *)
Definition DeadlineExceeded : string := "context deadline exceeded".

(** The [k]-th call of [ctx.Err()], counted from 0.  [cancel] is deferred,
    so the deadline is the only way the context ends inside the body. *)
Definition ctx_Err (o : PullObs) (k : nat) : option string :=
  if (k <? nil_reads o)%nat then None else Some DeadlineExceeded.

Definition is_nil {A} (e : option A) : bool :=
  match e with None => true | Some _ => false end.

(** Lines 69 to 78: the record as it is first built. *)
Definition new_result (imageURL : string) (o : PullObs) : Result :=
  let registry := parseRegistry imageURL in
  {| Image := imageURL; Registry := registry;
     Success := is_nil (err o) && is_nil (ctx_Err o 0);
     PullTimeMs := elapsed_ms o; StartTime := start_time o;
     EndTime := end_time o; Error := EmptyString; Bytes := 0; Layers := 0;
     CmdOutput := output o |}.

(** Lines 79 to 81: [if err != nil { res.Error = err.Error() }]. *)
Definition record_exit_error (o : PullObs) (r : Result) : Result :=
  match err o with
  | Some e => set_Error e r
  | None => r
  end.

(** Lines 82 to 84: [if ctx.Err() != nil { res.Error = ctx.Err().Error() }]. *)
Definition record_ctx_error (o : PullObs) (r : Result) : Result :=
  match ctx_Err o 1 with
  | Some _ =>
    match ctx_Err o 2 with
    | Some e => set_Error e r
    | None => r
    end
  | None => r
  end.

Definition pull (imageURL : string) (o : PullObs) : Result :=
  parseDockerOutput
    (record_ctx_error o (record_exit_error o (new_result imageURL o)))
    (output o).

(** ** Summary statistics: [printSummary] *)

(** The operands of the [Printf] call at the end of [printSummary]. *)
Record Summary := mkSummary {
  succeeded : Z;
  total : Z;
  minMs : Z;
  maxMs : Z;
  avgMs : float
}.

Record summary_acc := mkAcc {
  acc_success : Z;
  acc_min : Z;
  acc_max : Z;
  acc_sum : Z
}.

(** The body of [for i, r := range results]. *)
Definition summary_step (i : Z) (r : Result) (a : summary_acc) : summary_acc :=
  if Success r then
    {| acc_success := wrap64 (acc_success a + 1);
       acc_min :=
         if (i =? 0) || (PullTimeMs r <? acc_min a) then PullTimeMs r
         else acc_min a;
       acc_max := if PullTimeMs r >? acc_max a then PullTimeMs r else acc_max a;
       acc_sum := wrap64 (acc_sum a + PullTimeMs r) |}
  else a.

Fixpoint summary_loop (i : Z) (results : list Result) (a : summary_acc)
    : summary_acc :=
  match results with
  | [] => a
  | r :: rest => summary_loop (i + 1) rest (summary_step i r a)
  end.

Definition printSummary (results : list Result) : Summary :=
  let a :=
    summary_loop 0 results
      {| acc_success := 0; acc_min := 0; acc_max := 0; acc_sum := 0 |} in
  {| succeeded := acc_success a;
     total := Z.of_nat (length results);
     minMs := acc_min a;
     maxMs := acc_max a;
     avgMs := (float64_of_int (acc_sum a) / float64_of_int (acc_success a))%float |}.

(** ** The [warmup] command *)

Record WarmupResult := mkWarmupResult {
  Iteration : Z;
  WarmupPullTimeMs : Z;
  CacheState : string;
  WarmupSuccess : bool;
  WarmupError : string
}.

(** The external commands and pauses of a run, in the order they happen. *)
Inductive event :=
| DockerRmi (image : string)
| DockerPull (image : string)
| Sleep (ms : Z).

(** The body of the loop for iteration [i].  [env i] is what [runCommand]
    gives at that iteration: the elapsed milliseconds and the error. *)
Definition warmup_iteration (imageURL : string) (iterations delay : Z)
    (env : Z -> Z * option string) (i : Z)
    (st : list event * list WarmupResult) : list event * list WarmupResult :=
  let '(trace, results) := st in
  let trace := if i =? 1 then (trace ++ [DockerRmi imageURL])%list else trace in
  let trace := (trace ++ [DockerPull imageURL])%list in
  let '(elapsed, e) := env i in
  let cacheState := if i >? 1 then "warm" else "cold" in
  let r :=
    {| Iteration := i; WarmupPullTimeMs := elapsed; CacheState := cacheState;
       WarmupSuccess := is_nil e;
       WarmupError := match e with Some msg => msg | None => EmptyString end |} in
  let results := (results ++ [r])%list in
  let trace :=
    if i <? iterations then (trace ++ [DockerRmi imageURL; Sleep delay])%list
    else trace in
  (trace, results).

(** [for i := 1; i <= iterations; i++]. *)
Fixpoint warmup_loop (fuel : nat) (imageURL : string) (iterations delay : Z)
    (env : Z -> Z * option string) (i : Z)
    (st : list event * list WarmupResult) : list event * list WarmupResult :=
  match fuel with
  | O => st
  | S k =>
    if i <=? iterations
    then warmup_loop k imageURL iterations delay env (i + 1)
           (warmup_iteration imageURL iterations delay env i st)
    else st
  end.

(** The loop runs [iterations] times, which is the fuel it gets.  (At the
    greatest [int] the increment of [i] would wrap around and the loop of
    the source would not end; the commands below stay away from it.) *)
Definition warmupCmd (imageURL : string) (iterations delay : Z)
    (env : Z -> Z * option string) : list event * list WarmupResult :=
  warmup_loop (Z.to_nat iterations) imageURL iterations delay env 1 ([], []).

Definition removals (trace : list event) : nat :=
  length (List.filter (fun e => match e with DockerRmi _ => true | _ => false end)
            trace).

(** ** The [benchmark] command: goroutines, gate, mutex and wait group *)

(** Where a worker goroutine stands in the body of [go func(imageURL)]. *)
Inductive pc :=
| AtAcquire                (* line 61, before [sem <- struct{}{}] *)
| AtPull                   (* lines 62 to 86, the pull is under way *)
| AtLock (r : Result)      (* line 87, before [resultsMu.Lock()] *)
| AtAppend (r : Result)    (* line 88, before [results] is read *)
| AtStore (r : Result) (old : list Result)
                           (* line 88, before [append(old, res)] is stored *)
| AtUnlock                 (* line 89, before [resultsMu.Unlock()] *)
| AtRelease                (* line 90, before [<-sem] *)
| AtDone                   (* the deferred [cancel()] and [wg.Done()] *)
| Exited.

(** The main goroutine: in the dispatch loop with the images still to
    dispatch ([Looping []] stands at [wg.Wait()]), or past the barrier. *)
Inductive main_pc :=
| Looping (rest : list string)
| Joined.

Record state := mkState {
  main : main_pc;
  workers : list (string * pc);
  sem_len : nat;
  sem_cap : nat;
  mu : bool;
  wg : nat;
  results : list Result
}.

(** [make(chan struct{}, concurrency)] panics on a negative size; nothing
    has been dispatched by then. *)
Definition benchmark_init (args : list string) (concurrency : Z)
    : option state :=
  if concurrency <? 0 then None
  else Some {| main := Looping args; workers := []; sem_len := 0;
               sem_cap := Z.to_nat concurrency; mu := false; wg := 0;
               results := [] |}.

(** What the scheduler picks next: the main goroutine dispatches the next
    image or passes the barrier, a worker takes its next step (with the
    observation of its pull when that step is the pull), or, on a gate
    without buffer, a sender and a receiver meet.  A pull that is under way
    can always end: the command returns by itself or is killed at the
    deadline, with whatever outcome the observation carries. *)
Inductive action :=
| Spawn
| Join
| Work (i : nat) (o : PullObs)
| Handoff (i j : nat).

Definition set_pc (i : nat) (img : string) (p : pc) (s : state)
    (len : nat) (m : bool) (w : nat) (rs : list Result) : state :=
  {| main := main s; workers := <[i := (img, p)]> (workers s);
     sem_len := len; sem_cap := sem_cap s; mu := m; wg := w; results := rs |}.

Definition work (i : nat) (o : PullObs) (s : state) : option state :=
  match workers s !! i with
  | None => None
  | Some (img, p) =>
    match p with
    | AtAcquire =>
      if (sem_len s <? sem_cap s)%nat
      then Some (set_pc i img AtPull s (S (sem_len s)) (mu s) (wg s) (results s))
      else None
    | AtPull =>
      Some (set_pc i img (AtLock (pull img o)) s
              (sem_len s) (mu s) (wg s) (results s))
    | AtLock r =>
      if mu s then None
      else Some (set_pc i img (AtAppend r) s (sem_len s) true (wg s) (results s))
    | AtAppend r =>
      Some (set_pc i img (AtStore r (results s)) s
              (sem_len s) (mu s) (wg s) (results s))
    | AtStore r old =>
      Some (set_pc i img AtUnlock s (sem_len s) (mu s) (wg s) (old ++ [r])%list)
    | AtUnlock =>
      Some (set_pc i img AtRelease s (sem_len s) false (wg s) (results s))
    | AtRelease =>
      match sem_len s with
      | S n => Some (set_pc i img AtDone s n (mu s) (wg s) (results s))
      | O => None
      end
    | AtDone =>
      match wg s with
      | S n => Some (set_pc i img Exited s (sem_len s) (mu s) n (results s))
      | O => None
      end
    | Exited => None
    end
  end.

Definition handoff (i j : nat) (s : state) : option state :=
  if (sem_cap s =? 0)%nat then
    match workers s !! i, workers s !! j with
    | Some (a, AtAcquire), Some (b, AtRelease) =>
      Some {| main := main s;
              workers := <[j := (b, AtDone)]> (<[i := (a, AtPull)]> (workers s));
              sem_len := sem_len s; sem_cap := sem_cap s; mu := mu s;
              wg := wg s; results := results s |}
    | _, _ => None
    end
  else None.

Definition step (a : action) (s : state) : option state :=
  match a with
  | Spawn =>
    match main s with
    | Looping (img :: rest) =>
      Some {| main := Looping rest;
              workers := (workers s ++ [(img, AtAcquire)])%list;
              sem_len := sem_len s; sem_cap := sem_cap s; mu := mu s;
              wg := S (wg s); results := results s |}
    | _ => None
    end
  | Join =>
    match main s with
    | Looping [] =>
      if (wg s =? 0)%nat
      then Some {| main := Joined; workers := workers s;
                   sem_len := sem_len s; sem_cap := sem_cap s; mu := mu s;
                   wg := wg s; results := results s |}
      else None
    | _ => None
    end
  | Work i o => work i o s
  | Handoff i j => handoff i j s
  end.

(** A schedule is run from left to right; it fails where an action is not
    enabled. *)
Fixpoint run (sched : list action) (s : state) : option state :=
  match sched with
  | [] => Some s
  | a :: rest =>
    match step a s with
    | Some s' => run rest s'
    | None => None
    end
  end.

Definition count_pc (f : pc -> bool) (ws : list (string * pc)) : nat :=
  length (List.filter (fun w => f (snd w)) ws).

Definition pulling (p : pc) : bool :=
  match p with AtPull => true | _ => false end.

(** The workers that hold a slot of the gate. *)
Definition holding (p : pc) : bool :=
  match p with
  | AtPull | AtLock _ | AtAppend _ | AtStore _ _ | AtUnlock | AtRelease => true
  | _ => false
  end.

Definition critical (p : pc) : bool :=
  match p with AtAppend _ | AtStore _ _ | AtUnlock => true | _ => false end.

Definition published (p : pc) : bool :=
  match p with AtUnlock | AtRelease | AtDone | Exited => true | _ => false end.

Definition running (p : pc) : bool :=
  match p with Exited => false | _ => true end.

(** The number of pulls under way. *)
Definition active_pulls (s : state) : nat := count_pc pulling (workers s).

(** ** The specification's side *)

(** The Registry Classifier as the specification words it: the text before
    the first [/], when there is a [/], decides alone. *)
Fixpoint before_first_slash (s : string) : option string :=
  match s with
  | EmptyString => None
  | String a t =>
    if Ascii.eqb a "/" then Some EmptyString
    else option_map (String a) (before_first_slash t)
  end.

Fixpoint has_byte (c : ascii) (s : string) : bool :=
  match s with
  | EmptyString => false
  | String a t => Ascii.eqb a c || has_byte c t
  end.

Definition classify_spec (image : string) : string :=
  match before_first_slash image with
  | None => "docker.io"
  | Some host =>
    if has_byte "." host || has_byte ":" host then host else "docker.io"
  end.

(** The offset of the first byte [a] of [s], counted from [i], or [-1]. *)
Fixpoint byte_index (a : ascii) (i : Z) (s : string) : Z :=
  match s with
  | EmptyString => -1
  | String b t => if Ascii.eqb b a then i else byte_index a (i + 1) t
  end.

(** The first [n] bytes of [s] are there and are 0x80 or above. *)
Fixpoint high_prefix (n : nat) (s : string) : Prop :=
  match n with
  | O => True
  | S k =>
    match s with
    | String b t => 0x80 <= byte_val b /\ high_prefix k t
    | EmptyString => False
    end
  end.

(** A scan that does what the library does, as opposed to one that stops
    at a place the model leaves out. *)
Definition modelled {A} (r : fmt.result A) : Prop := r <> fmt.Panic fmt.NotModelled.

(** The verbs that the model follows on an integer operand: [%d], and the
    verbs that [scanInt] refuses. *)
Definition verb_modelled (c : Z) : bool :=
  negb (c =? rune "c")
  && (negb (fmt.indexRune "bdoUxXv" c >=? 0) || (c =? rune "d")).

Fixpoint verbs_modelled (format : string) : bool :=
  match format with
  | EmptyString => true
  | String _ t =>
    verb_modelled (fst (utf8.DecodeRuneInString format)) && verbs_modelled t
  end.

(** The pull times of the successful results, and the least and the
    greatest of a list of times. *)
Definition successful_times (results : list Result) : list Z :=
  map PullTimeMs (List.filter Success results).

Definition least (l : list Z) : option Z :=
  match l with
  | [] => None
  | x :: t => Some (fold_left Z.min t x)
  end.

Definition greatest (l : list Z) : option Z :=
  match l with
  | [] => None
  | x :: t => Some (fold_left Z.max t x)
  end.

(** A summary whose average is a number. *)
Definition defined_average (s : Summary) : Prop :=
  PrimFloat.is_nan (avgMs s) = false.

(** ** Sample data *)

Definition join_lines (ls : list string) : string :=
  match ls with
  | [] => EmptyString
  | l :: rest => fold_left (fun acc x => acc ++ String nl x) rest l
  end.

Definition three_layer_lines : string :=
  join_lines ["Pulling fs layer"; "Pulling fs layer"; "Pulling fs layer"].

Definition blank_result : Result :=
  {| Image := "ubuntu"; Registry := "docker.io"; Success := true;
     PullTimeMs := 0; StartTime := EmptyString; EndTime := EmptyString;
     Error := EmptyString; Bytes := 0; Layers := 0;
     CmdOutput := EmptyString |}.

Definition timed (ok : bool) (ms : Z) : Result :=
  {| Image := "ubuntu"; Registry := "docker.io"; Success := ok;
     PullTimeMs := ms; StartTime := EmptyString; EndTime := EmptyString;
     Error := if ok then EmptyString else "exit status 1"; Bytes := 0;
     Layers := 0; CmdOutput := EmptyString |}.

(** A pull whose command ends well just before the deadline: the context is
    still alive at line 73 and has ended at line 82. *)
Definition late_success : PullObs :=
  {| output := "Status: Image is up to date"; err := None;
     elapsed_ms := 119999; start_time := "2025-01-01T00:00:00Z";
     end_time := "2025-01-01T00:02:00Z"; nil_reads := 1 |}.

(** A pull killed at the deadline. *)
Definition killed_at_deadline : PullObs :=
  {| output := EmptyString; err := Some "signal: killed";
     elapsed_ms := 120000; start_time := "2025-01-01T00:00:00Z";
     end_time := "2025-01-01T00:02:00Z"; nil_reads := 0 |}.

Definition quick_success : PullObs :=
  {| output := "Status: Image is up to date"; err := None;
     elapsed_ms := 100; start_time := "2025-01-01T00:00:00Z";
     end_time := "2025-01-01T00:00:00Z"; nil_reads := 3 |}.

Definition always_ok (i : Z) : Z * option string := (100 * i, None).

(** ** Invariants and measures *)

(** Two records that differ at most in [Bytes]. *)
Definition same_but_bytes (r r' : Result) : Prop :=
  Image r' = Image r /\ Registry r' = Registry r /\ Success r' = Success r
  /\ PullTimeMs r' = PullTimeMs r /\ StartTime r' = StartTime r
  /\ EndTime r' = EndTime r /\ Error r' = Error r /\ Layers r' = Layers r
  /\ CmdOutput r' = CmdOutput r.

(** The whole run from the start of the command: the gate is made, then
    the schedule is followed. *)
Definition run_benchmark (args : list string) (concurrency : Z)
    (sched : list action) : option state :=
  match benchmark_init args concurrency with
  | Some s0 => run sched s0
  | None => None
  end.

(** The images whose result has been appended to the shared slice. *)
Definition published_images (ws : list (string * pc)) : list string :=
  map fst (List.filter (fun w => published (snd w)) ws).

(** A worker that carries a result carries the result of its own image. *)
Definition carries_own (w : string * pc) : Prop :=
  match snd w with
  | AtLock r | AtAppend r | AtStore r _ => exists o, r = pull (fst w) o
  | _ => True
  end.

(** The slice that a worker has read inside the critical section is still
    the shared slice. *)
Definition fresh_snapshot (rs : list Result) (w : string * pc) : Prop :=
  match snd w with
  | AtStore _ old => old = rs
  | _ => True
  end.

(** What holds of every state a schedule can reach from the start on
    [args]: the gate's buffer counts the workers that hold a slot and stays
    within its capacity, the wait group counts the workers still running,
    the mutex is held by the one worker inside the critical section, whose
    copy of the slice is up to date, the images are dispatched in order, and
    the shared slice holds one result of [pull] for each worker that has
    published. *)
Record inv (args : list string) (s : state) : Prop := mkInv {
  inv_sem : sem_len s = count_pc holding (workers s);
  inv_cap : (sem_len s <= sem_cap s)%nat;
  inv_wg : wg s = count_pc running (workers s);
  inv_mu : count_pc critical (workers s) = Nat.b2n (mu s);
  inv_args :
    match main s with
    | Looping rest => (map fst (workers s) ++ rest)%list = args
    | Joined => map fst (workers s) = args /\ wg s = 0%nat
    end;
  inv_results : map Image (results s) ≡ₚ published_images (workers s);
  inv_carried : Forall carries_own (workers s);
  inv_snapshot : Forall (fresh_snapshot (results s)) (workers s);
  inv_pulled : Forall (fun r => exists o, r = pull (Image r) o) (results s)
}.

(** The steps that nothing can block. *)
Definition unblocked (p : pc) : bool :=
  match p with
  | AtPull | AtAppend _ | AtStore _ _ | AtUnlock | AtDone => true
  | _ => false
  end.

Definition at_release (p : pc) : bool :=
  match p with AtRelease => true | _ => false end.

Definition at_lock (p : pc) : bool :=
  match p with AtLock _ => true | _ => false end.

(** What holds of every state behind a gate of capacity 0: every worker
    that was dispatched stands before the gate. *)
Definition inv0 (s : state) : Prop :=
  sem_cap s = 0%nat
  /\ Forall (fun w => snd w = AtAcquire) (workers s)
  /\ results s = []
  /\ wg s = length (workers s).

(** The steps a worker has left, and the steps the whole run has left. *)
Definition weight (p : pc) : nat :=
  match p with
  | AtAcquire => 8
  | AtPull => 7
  | AtLock _ => 6
  | AtAppend _ => 5
  | AtStore _ _ => 4
  | AtUnlock => 3
  | AtRelease => 2
  | AtDone => 1
  | Exited => 0
  end.

Definition total_weight (ws : list (string * pc)) : nat :=
  fold_right (fun w acc => (weight (snd w) + acc)%nat) 0%nat ws.

Definition remaining (s : state) : nat :=
  (match main s with
   | Looping rest => 9 * length rest + 1
   | Joined => 0
   end + total_weight (workers s))%nat.

(** Two images, one slot: both workers run to their end, one after the
    other, and the main goroutine passes the barrier. *)
Definition two_images : list string := ["ubuntu:latest"; "ghcr.io/o/r:tag"].

Definition one_by_one : list action :=
  [Spawn; Spawn;
   Work 1 quick_success; Work 1 killed_at_deadline; Work 1 quick_success;
   Work 1 quick_success; Work 1 quick_success; Work 1 quick_success;
   Work 1 quick_success; Work 1 quick_success;
   Work 0 quick_success; Work 0 quick_success; Work 0 quick_success;
   Work 0 quick_success; Work 0 quick_success; Work 0 quick_success;
   Work 0 quick_success; Work 0 quick_success;
   Join].

(** Five images, two slots: two pulls are under way and a third worker
    waits at the gate. *)
Definition five_images : list string :=
  ["ubuntu"; "alpine"; "nginx"; "redis"; "busybox"].

Definition two_in_flight : list action :=
  [Spawn; Spawn; Spawn; Work 2 quick_success; Work 0 quick_success;
   Spawn; Spawn].

(** * Properties *)

(** ** Registry classification *)

Example parseRegistry_ghcr :
  parseRegistry "ghcr.io/OWNER/REPO:tag" = "ghcr.io".
Proof. reflexivity. Qed.

Example parseRegistry_bare : parseRegistry "ubuntu:latest" = "docker.io".
Proof. reflexivity. Qed.

Example parseRegistry_namespaced : parseRegistry "library/ubuntu" = "docker.io".
Proof. reflexivity. Qed.

Example parseRegistry_port :
  parseRegistry "localhost:5000/app" = "localhost:5000".
Proof. reflexivity. Qed.

(** *** Bytes and runes *)

Lemma byte_val_range a : 0 <= byte_val a < 256.
Proof.
  unfold byte_val. pose proof (N_ascii_bounded a). lia.
Qed.

Lemma byte_val_inj a b : byte_val a = byte_val b -> a = b.
Proof.
  unfold byte_val. intros H. apply N2Z.inj in H.
  rewrite <- (ascii_N_embedding a), <- (ascii_N_embedding b), H. reflexivity.
Qed.

Lemma byte_val_eqb a b : (byte_val a =? byte_val b) = Ascii.eqb a b.
Proof.
  destruct (Ascii.eqb_spec a b) as [->|Hne].
  - apply Z.eqb_refl.
  - apply Z.eqb_neq. intros H. apply Hne, byte_val_inj, H.
Qed.

Lemma lor_high a b : 0 <= a -> 0 <= b -> 128 <= a \/ 128 <= b -> 128 <= Z.lor a b.
Proof.
  intros Ha Hb Hab.
  assert (H0 : 0 <= Z.lor a b) by (apply Z.lor_nonneg; split; assumption).
  destruct (Z.lt_ge_cases (Z.lor a b) 128) as [Hlt|]; [exfalso|assumption].
  assert (Hl : Z.log2 (Z.lor a b) < 7).
  { destruct (Z.eq_dec (Z.lor a b) 0) as [->|]; [reflexivity|].
    apply Z.log2_lt_pow2; [lia|exact Hlt]. }
  rewrite Z.log2_lor in Hl by assumption.
  destruct Hab as [H|H];
    apply Z.log2_le_mono in H; change (Z.log2 128) with 7 in H; lia.
Qed.

Lemma land_low_bits a k : 0 <= k -> Z.land a (Z.ones k) = a mod 2 ^ k.
Proof. apply Z.land_ones. Qed.

Lemma part_nonneg s m k : 0 <= s -> 0 <= k -> 0 <= Z.shiftl (Z.land s m) k.
Proof.
  intros Hs Hk. apply Z.shiftl_nonneg, Z.land_nonneg. left. exact Hs.
Qed.

Lemma DecodeRune_ascii a t :
  byte_val a < 0x80 ->
  utf8.DecodeRuneInString (String a t) = (byte_val a, 1%nat).
Proof.
  intros H. unfold utf8.DecodeRuneInString, utf8.first.
  destruct (Z.ltb_spec (byte_val a) 0x80); [reflexivity|lia].
Qed.

Ltac first_cases H :=
  unfold utf8.first in H;
  repeat match type of H with
         | (if ?x <? ?y then _ else _) = _ => destruct (Z.ltb_spec x y)
         | (if ?x =? ?y then _ else _) = _ => destruct (Z.eqb_spec x y)
         end; try discriminate H; injection H as <- <- <-.

Ltac split_decode :=
  repeat match goal with
         | H : (if ?b then _ else _) = _ |- _ => destruct b eqn:?
         | H : match ?t with EmptyString => _ | String _ _ => _ end = _ |- _ =>
           destruct t
         end.

Lemma in_range_true lo hi b :
  negb (utf8.in_range lo hi b) = false -> lo <= b <= hi.
Proof.
  unfold utf8.in_range. intros H. apply negb_false_iff in H.
  apply andb_true_iff in H as [H1 H2]. lia.
Qed.

Ltac nonneg :=
  repeat first
    [ lia
    | apply Z.lor_nonneg; split
    | apply Z.shiftl_nonneg
    | apply Z.land_nonneg; left; lia ].

Ltac bits :=
  unfold utf8.mask2, utf8.mask3, utf8.mask4, utf8.maskx;
  rewrite ?Z.shiftl_mul_pow2 by lia;
  change 0x1F with (Z.ones 5); change 0x0F with (Z.ones 4);
  change 0x07 with (Z.ones 3); change 0x3F with (Z.ones 6);
  rewrite !Z.land_ones by lia;
  change (2 ^ 3) with 8; change (2 ^ 4) with 16; change (2 ^ 5) with 32;
  change (2 ^ 6) with 64; change (2 ^ 12) with 4096;
  change (2 ^ 18) with 262144;
  Z.div_mod_to_equations; lia.

Ltac high :=
  first [ bits
        | apply lor_high; [nonneg | nonneg | first [left; high | right; high]] ].

Lemma DecodeRune_high a t r w :
  0x80 <= byte_val a ->
  utf8.DecodeRuneInString (String a t) = (r, w) ->
  0x80 <= r /\ (1 <= w)%nat /\ high_prefix (w - 1) t.
Proof.
  intros Ha Hd. pose proof (byte_val_range a) as Hr.
  unfold utf8.DecodeRuneInString in Hd.
  destruct (utf8.first (byte_val a)) as [| |sz lo hi] eqn:Hf.
  - unfold utf8.first in Hf.
    destruct (Z.ltb_spec (byte_val a) 0x80); [lia|].
    repeat match type of Hf with
           | (if ?b then _ else _) = _ => destruct b
           end; discriminate Hf.
  - injection Hd as <- <-. repeat split; unfold utf8.RuneError; lia.
  - first_cases Hf; split_decode; injection Hd as <- <-.
    all: try (repeat split; unfold utf8.RuneError; lia).
    all: simpl in *; try discriminate.
    all: repeat match goal with
                | H : negb (utf8.in_range _ _ _) = false |- _ =>
                  apply in_range_true in H; unfold utf8.locb, utf8.hicb in H
                | a : ascii |- _ =>
                  lazymatch goal with
                  | _ : 0 <= byte_val a < 256 |- _ => fail
                  | _ => pose proof (byte_val_range a)
                  end
                end.
    all: repeat split; try lia.
    all: high.
Qed.

(** Looking for an ASCII rune, the loop over the runes of a string finds
    what a loop over its bytes finds: the bytes of a longer encoding, and the
    bytes that are no encoding at all, are 0x80 and above. *)
Lemma indexOf_from_ascii a :
  byte_val a < 0x80 ->
  forall s skip i,
    high_prefix skip s ->
    indexOf_from (rune a) skip i s = byte_index a i s.
Proof.
  intros Ha s. induction s as [|b t IH]; intros skip i Hhigh.
  - destruct skip; reflexivity.
  - destruct skip as [|k].
    + cbn [indexOf_from byte_index].
      destruct (utf8.DecodeRuneInString (String b t)) as [ch w] eqn:Hd.
      destruct (Z.lt_ge_cases (byte_val b) 0x80) as [Hb|Hb].
      * rewrite (DecodeRune_ascii b t Hb) in Hd. injection Hd as <- <-.
        unfold rune. rewrite byte_val_eqb.
        destruct (Ascii.eqb b a); [reflexivity|].
        apply IH. exact I.
      * destruct (DecodeRune_high b t ch w Hb Hd) as (Hch & Hw & Hp).
        replace (ch =? rune a) with false
          by (symmetry; apply Z.eqb_neq; unfold rune; lia).
        replace (Ascii.eqb b a) with false
          by (symmetry; apply Ascii.eqb_neq; intros ->; lia).
        apply IH. replace (Nat.pred w) with (w - 1)%nat by lia. exact Hp.
    + cbn [indexOf_from byte_index]. destruct Hhigh as [Hb Hk].
      replace (Ascii.eqb b a) with false
        by (symmetry; apply Ascii.eqb_neq; intros ->; lia).
      apply IH. exact Hk.
Qed.

Lemma indexOf_ascii a s :
  byte_val a < 0x80 -> indexOf s (rune a) = byte_index a 0 s.
Proof. intros Ha. apply (indexOf_from_ascii a Ha s 0%nat 0). exact I. Qed.

Lemma byte_index_shift a s i :
  byte_index a i s = -1 \/ i <= byte_index a i s.
Proof.
  revert i. induction s as [|b t IH]; intros i; simpl; [left; reflexivity|].
  destruct (Ascii.eqb b a); [right; lia|].
  destruct (IH (i + 1)); [left; assumption|right; lia].
Qed.

Lemma byte_index_has a s i :
  0 <= i -> (byte_index a i s =? -1) = negb (has_byte a s).
Proof.
  revert i. induction s as [|b t IH]; intros i Hi; simpl; [reflexivity|].
  destruct (Ascii.eqb b a); simpl.
  - apply Z.eqb_neq. lia.
  - apply IH. lia.
Qed.

(** The first [/] and the text before it. *)
Lemma byte_index_slash s i :
  match before_first_slash s with
  | None => byte_index "/" i s = -1
  | Some host =>
    byte_index "/" i s = i + Z.of_nat (String.length host)
    /\ substring 0 (String.length host) s = host
  end.
Proof.
  revert i. induction s as [|b t IH]; intros i; simpl; [reflexivity|].
  destruct (Ascii.eqb b "/"); simpl.
  - split; [lia|reflexivity].
  - specialize (IH (i + 1)).
    destruct (before_first_slash t) as [host|]; simpl; [|exact IH].
    destruct IH as [Hi Hs]. split; [lia|]. rewrite Hs. reflexivity.
Qed.

(** What [parseRegistry] computes, in terms of bytes: the text before the
    first [/] when it is not empty and a dot or a colon stands anywhere in
    the reference, the default label otherwise. *)
Lemma parseRegistry_bytes image :
  parseRegistry image =
  match before_first_slash image with
  | None => "docker.io"
  | Some host =>
    if negb (String.eqb host EmptyString)
       && (has_byte "." image || has_byte ":" image)
    then host
    else "docker.io"
  end.
Proof.
  unfold parseRegistry, isOfficialDockerHub.
  rewrite !indexOf_ascii by (vm_compute; reflexivity).
  rewrite !byte_index_has by lia.
  pose proof (byte_index_slash image 0) as Hs.
  destruct (before_first_slash image) as [host|].
  - destruct Hs as [Hi Hsub]. rewrite Hi.
    rewrite <- negb_orb, negb_involutive.
    destruct host as [|c host].
    + reflexivity.
    + replace (0 + Z.of_nat (String.length (String c host)) >? 0) with true
        by (symmetry; apply Z.gtb_lt; simpl String.length; lia).
      cbn [String.eqb negb andb].
      destruct (has_byte "." image || has_byte ":" image); [|reflexivity].
      rewrite Z.add_0_l, Nat2Z.id. exact Hsub.
  - rewrite Hs. reflexivity.
Qed.

(** Without a [/] the default label is returned. *)
Lemma parseRegistry_no_slash image :
  has_byte "/" image = false -> parseRegistry image = "docker.io".
Proof.
  intros H. rewrite parseRegistry_bytes.
  pose proof (byte_index_slash image 0) as Hs.
  destruct (before_first_slash image) as [host|]; [|reflexivity].
  destruct Hs as [Hi _].
  pose proof (byte_index_has "/" image 0 ltac:(lia)) as Hb.
  rewrite H in Hb. simpl in Hb. apply Z.eqb_eq in Hb. lia.
Qed.

Lemma has_byte_prefix c n s :
  has_byte c (substring 0 n s) = true -> has_byte c s = true.
Proof.
  revert s. induction n as [|n IH]; intros s.
  - destruct s; simpl; discriminate.
  - destruct s as [|b t]; simpl; [discriminate|].
    destruct (Ascii.eqb b c); [reflexivity|]. simpl. apply IH.
Qed.

(** A dot or a colon before the first [/] makes that prefix the registry. *)
Lemma parseRegistry_host image host :
  before_first_slash image = Some host ->
  has_byte "." host || has_byte ":" host = true ->
  parseRegistry image = host /\ classify_spec image = host.
Proof.
  intros Hb Hh. rewrite parseRegistry_bytes. unfold classify_spec.
  rewrite Hb, Hh. split; [|reflexivity].
  pose proof (byte_index_slash image 0) as Hs. rewrite Hb in Hs.
  destruct Hs as [_ Hsub].
  assert (Hi : has_byte "." image || has_byte ":" image = true).
  { apply orb_true_iff in Hh. apply orb_true_iff.
    rewrite <- Hsub in Hh.
    destruct Hh as [H|H]; [left|right]; eapply has_byte_prefix; exact H. }
  rewrite Hi. destruct host; [discriminate Hh|reflexivity].
Qed.

(** The two classifiers part exactly where the dot or the colon stands
    behind the first [/] only. *)
Lemma parseRegistry_differs image host :
  before_first_slash image = Some host ->
  host <> EmptyString ->
  has_byte "." host || has_byte ":" host = false ->
  has_byte "." image || has_byte ":" image = true ->
  parseRegistry image = host /\ classify_spec image = "docker.io".
Proof.
  intros Hb Hne Hh Hi. rewrite parseRegistry_bytes. unfold classify_spec.
  rewrite Hb, Hh, Hi. split; [|reflexivity].
  destruct host; [congruence|reflexivity].
Qed.

(** C3: the classifier is to answer from the text before the first [/]
    alone, so that [library/ubuntu:latest] gets the default label.
    [isOfficialDockerHub] looks for the dot and the colon in the whole
    reference: the tag's colon makes [parseRegistry] return the namespace
    [library], where the classifier of the specification answers
    [docker.io]. *)
Theorem parseRegistry_tagged_namespace :
  parseRegistry "library/ubuntu:latest" = "library"
  /\ isOfficialDockerHub "library/ubuntu:latest" = false
  /\ classify_spec "library/ubuntu:latest" = "docker.io".
Proof. repeat split; reflexivity. Qed.

(** ** Output scraping *)

Example Sscanf_bytes :
  fmt.Sscanf "1234B" "%dB" 1 = fmt.mk_scanned 1 [1234] None.
Proof. vm_compute. reflexivity. Qed.

Example Sscanf_bytes_no_suffix :
  fmt.Sscanf "  -12 MB" "%dB" 1 = fmt.mk_scanned 1 [-12] (Some fmt.ScanError).
Proof. vm_compute. reflexivity. Qed.

Example Sscanf_layer_marker :
  fmt.Sscanf "Pulling fs layer" "Pulling fs layer" 0 = fmt.mk_scanned 0 [] None.
Proof. vm_compute. reflexivity. Qed.

Example Sscanf_downloaded :
  fmt.Sscanf "Downloaded newer image for ubuntu:latest"
    "Downloaded newer image for %*s" 0
  = fmt.mk_scanned 0 [] (Some fmt.ScanError).
Proof. vm_compute. reflexivity. Qed.

Example Sscanf_out_of_range :
  fmt.Sscanf "9223372036854775808B" "%dB" 1
  = fmt.mk_scanned 0 [] (Some fmt.ScanError).
Proof. vm_compute. reflexivity. Qed.

(** [doScanf] counts the operands it fills in: without operands the count
    stays where it is, whatever the format and the input. *)
Lemma doScanf_no_operands fuel format i stored s :
  fst (fmt.doScanf_loop fuel format i 0 stored s) = stored.
Proof.
  revert i stored s.
  induction fuel as [|k IH]; intros i stored s; simpl;
  repeat
    match goal with
    | |- fst (if ?b then _ else _) = _ => destruct b
    | |- fst (match ?x with _ => _ end) = _ => destruct x
    | |- fst (let '(_, _) := ?x in _) = _ => destruct x
    end; simpl; auto.
Qed.

Lemma Sscanf_no_operands str format : fmt.n (fmt.Sscanf str format 0) = 0.
Proof.
  unfold fmt.Sscanf.
  pose proof (doScanf_no_operands (String.length format) format 0 []
                (fmt.newScanState str)) as H.
  destruct (fmt.doScanf_loop _ _ _ _ _ _) as [stored e].
  simpl in H. subst stored. reflexivity.
Qed.

(** *** The scanner never runs out of fuel *)

Lemma high_prefix_length n s : high_prefix n s -> (n <= String.length s)%nat.
Proof.
  revert s. induction n as [|n IH]; intros s H; [lia|].
  destruct s as [|b t]; [destruct H|]. destruct H as [_ H].
  specialize (IH t H). simpl. lia.
Qed.

Lemma DecodeRune_width a t r w :
  utf8.DecodeRuneInString (String a t) = (r, w) ->
  0 <= r /\ (1 <= w <= S (String.length t))%nat.
Proof.
  intros Hd. destruct (Z.lt_ge_cases (byte_val a) 0x80) as [Ha|Ha].
  - rewrite (DecodeRune_ascii a t Ha) in Hd. injection Hd as <- <-.
    pose proof (byte_val_range a). lia.
  - destruct (DecodeRune_high a t r w Ha Hd) as (Hr & Hw & Hp).
    apply high_prefix_length in Hp. lia.
Qed.

Lemma string_drop_length n s :
  String.length (string_drop n s) = (String.length s - n)%nat.
Proof.
  revert s. induction n as [|n IH]; intros s; simpl; [lia|].
  destruct s as [|b t]; simpl; [reflexivity|apply IH].
Qed.

Lemma string_drop_nonempty i s :
  (i < String.length s)%nat -> string_drop i s <> EmptyString.
Proof.
  intros Hi H. pose proof (string_drop_length i s) as Hl.
  rewrite H in Hl. simpl in Hl. lia.
Qed.

Lemma modelled_bind {A B} (m : fmt.M A) (k : A -> fmt.M B) s :
  modelled (m s) ->
  (forall a s', m s = fmt.Ret a s' -> modelled (k a s')) ->
  modelled ((m ≫= k) s).
Proof.
  intros Hm Hk. unfold mbind, fmt.M_bind.
  destruct (m s) as [a s'|e] eqn:Hms; [apply Hk; reflexivity|].
  intros [= ->]. apply Hm. reflexivity.
Qed.

Lemma modelled_ret {A} (a : A) s : modelled (fmt.ret a s).
Proof. discriminate. Qed.

Lemma modelled_errorString {A} s : modelled (@fmt.errorString A s).
Proof. discriminate. Qed.

(** A rune read is the end of the input, with the state untouched, or a
    rune of the input, which is then shorter. *)
Lemma getRune_spec s :
  exists r s',
    fmt.getRune s = fmt.Ret r s'
    /\ ((r = fmt.eof /\ s' = s)
        \/ (0 <= r /\ fmt.unread s' = fmt.rs s
            /\ (String.length (fmt.rs s') < String.length (fmt.rs s))%nat)).
Proof.
  unfold fmt.getRune.
  destruct (fmt.count s >=? fmt.argLimit s); [exists fmt.eof, s; auto|].
  destruct (fmt.rs s) as [|a t] eqn:Hrs; [exists fmt.eof, s; auto|].
  destruct (utf8.DecodeRuneInString (String a t)) as [r w] eqn:Hd.
  destruct (DecodeRune_width a t r w Hd) as [Hr Hw].
  eexists _, _. split; [reflexivity|]. right. simpl.
  rewrite string_drop_length. simpl. repeat split; [assumption|lia].
Qed.

Lemma UnreadRune_spec s :
  exists s', fmt.UnreadRune s = fmt.Ret tt s' /\ fmt.rs s' = fmt.unread s.
Proof. eexists. split; reflexivity. Qed.

(** [peek] leaves the input where it was. *)
Lemma peek_spec ok s :
  exists b s', fmt.peek ok s = fmt.Ret b s' /\ fmt.rs s' = fmt.rs s.
Proof.
  unfold fmt.peek, mbind, fmt.M_bind.
  destruct (getRune_spec s) as (r & s1 & -> & [[-> ->]|(Hr & Hu & _)]).
  - simpl. eexists _, _. split; reflexivity.
  - replace (r =? fmt.eof) with false
      by (symmetry; apply Z.eqb_neq; unfold fmt.eof; lia).
    simpl. eexists _, _. split; [reflexivity|]. simpl. exact Hu.
Qed.

Lemma SkipSpace_loop_modelled fuel : forall s,
  (String.length (fmt.rs s) < fuel)%nat -> modelled (fmt.SkipSpace_loop fuel s).
Proof.
  induction fuel as [|k IH]; intros s Hlen; [lia|].
  cbn [fmt.SkipSpace_loop]. unfold mbind, fmt.M_bind.
  destruct (getRune_spec s) as (r & s1 & -> & [[-> ->]|(Hr & Hu & Hl)]).
  - simpl. discriminate.
  - replace (r =? fmt.eof) with false
      by (symmetry; apply Z.eqb_neq; unfold fmt.eof; lia).
    assert (Hcr : exists b s2,
               (if r =? rune cr then fmt.peek (String nl "") else fmt.ret false) s1
               = fmt.Ret b s2 /\ fmt.rs s2 = fmt.rs s1).
    { destruct (r =? rune cr); [apply peek_spec|].
      eexists _, _. split; reflexivity. }
    destruct Hcr as (b & s2 & -> & Hrs).
    destruct b; [apply IH; rewrite Hrs; lia|].
    destruct (r =? rune nl); [discriminate|].
    destruct (negb (fmt.isSpace r)); [discriminate|].
    apply IH. rewrite Hrs. lia.
Qed.

Lemma SkipSpace_modelled s : modelled (fmt.SkipSpace s).
Proof. apply SkipSpace_loop_modelled. lia. Qed.

Lemma notEOF_modelled s : modelled (fmt.notEOF s).
Proof.
  unfold fmt.notEOF, mbind, fmt.M_bind.
  destruct (getRune_spec s) as (r & s1 & -> & _).
  destruct (r =? fmt.eof); discriminate.
Qed.

(** [consume] gives the input back when it refuses the rune, and shortens
    it when it takes the rune. *)
Lemma consume_spec ok acc s :
  exists b s',
    fmt.consume ok acc s = fmt.Ret b s'
    /\ (b = true ->
        (String.length (fmt.rs s') < String.length (fmt.rs s))%nat).
Proof.
  unfold fmt.consume, mbind, fmt.M_bind.
  destruct (getRune_spec s) as (r & s1 & -> & [[-> ->]|(Hr & Hu & Hl)]).
  - simpl. eexists _, _. split; [reflexivity|discriminate].
  - replace (r =? fmt.eof) with false
      by (symmetry; apply Z.eqb_neq; unfold fmt.eof; lia).
    destruct (fmt.indexRune ok r >=? 0).
    + destruct acc; simpl; eexists _, _; (split; [reflexivity|intros _; exact Hl]).
    + destruct acc; simpl; eexists _, _; (split; [reflexivity|discriminate]).
Qed.

Lemma accept_all_modelled ok fuel : forall s,
  (String.length (fmt.rs s) < fuel)%nat -> modelled (fmt.accept_all fuel ok s).
Proof.
  induction fuel as [|k IH]; intros s Hlen; [lia|].
  cbn [fmt.accept_all]. unfold mbind, fmt.M_bind, fmt.accept.
  destruct (consume_spec ok true s) as (b & s1 & -> & Hb).
  destruct b; [|discriminate].
  apply IH. specialize (Hb eq_refl). lia.
Qed.

Lemma skip_blanks_loop_modelled fuel : forall c s,
  (String.length (fmt.rs s) < fuel)%nat ->
  modelled (fmt.skip_blanks_loop fuel c s).
Proof.
  induction fuel as [|k IH]; intros c s Hlen; [lia|].
  cbn [fmt.skip_blanks_loop].
  destruct (fmt.isSpace c && negb (c =? rune nl)); [|discriminate].
  unfold mbind, fmt.M_bind.
  destruct (getRune_spec s) as (r & s1 & -> & [[-> ->]|(Hr & Hu & Hl)]).
  - destruct k; discriminate.
  - apply IH. lia.
Qed.

Lemma skip_blanks_modelled c s : modelled (fmt.skip_blanks c s).
Proof. apply skip_blanks_loop_modelled. lia. Qed.

Lemma match_newlines_modelled j : forall s, modelled (fmt.match_newlines j s).
Proof.
  induction j as [|j IH]; intros s; [discriminate|].
  cbn [fmt.match_newlines].
  apply modelled_bind.
  - destruct (getRune_spec s) as (r & s1 & -> & _). discriminate.
  - intros c s1 _. apply modelled_bind; [apply skip_blanks_modelled|].
    intros c' s2 _.
    destruct (negb (c' =? rune nl) && negb (c' =? fmt.eof)); [discriminate|].
    apply IH.
Qed.

Lemma format_spaces_le format fuel : forall i nls ts,
  (i <= fst (fst (fmt.format_spaces fuel format i nls ts)))%nat.
Proof.
  induction fuel as [|k IH]; intros i nls ts; cbn [fmt.format_spaces];
    [simpl; lia|].
  destruct (utf8.DecodeRuneInString (string_drop i format)) as [c w].
  destruct (fmt.isSpace c && (i <? String.length format)%nat); [|simpl; lia].
  destruct (c =? rune nl);
    match goal with |- context [fmt.format_spaces k format ?j ?a ?b] =>
      specialize (IH j a b) end; lia.
Qed.

Lemma DecodeRune_drop_width format i c w :
  (i < String.length format)%nat ->
  utf8.DecodeRuneInString (string_drop i format) = (c, w) ->
  0 <= c /\ (1 <= w)%nat.
Proof.
  intros Hi Hd.
  destruct (string_drop i format) as [|a t] eqn:Hs.
  - exfalso. exact (string_drop_nonempty i format Hi Hs).
  - destruct (DecodeRune_width a t c w Hd). split; [assumption|lia].
Qed.

Lemma format_spaces_progress format fuel i nls ts c w :
  (i < String.length format)%nat ->
  utf8.DecodeRuneInString (string_drop i format) = (c, w) ->
  fmt.isSpace c = true ->
  (i < fst (fst (fmt.format_spaces (S fuel) format i nls ts)))%nat.
Proof.
  intros Hi Hd Hc. cbn [fmt.format_spaces]. rewrite Hd, Hc.
  replace (i <? String.length format)%nat with true
    by (symmetry; apply Nat.ltb_lt; exact Hi).
  destruct (DecodeRune_drop_width format i c w Hi Hd) as [_ Hw].
  cbn [andb].
  destruct (c =? rune nl);
    match goal with |- context [fmt.format_spaces fuel format ?j ?a ?b] =>
      pose proof (format_spaces_le format fuel j a b) end; lia.
Qed.

Lemma getRune_modelled s : modelled (fmt.getRune s).
Proof. destruct (getRune_spec s) as (r & s1 & -> & _). discriminate. Qed.

Lemma UnreadRune_modelled s : modelled (fmt.UnreadRune s).
Proof. discriminate. Qed.

Lemma mustReadRune_modelled s : modelled (fmt.mustReadRune s).
Proof.
  unfold fmt.mustReadRune. apply modelled_bind; [apply getRune_modelled|].
  intros r s' _. destruct (r =? fmt.eof); discriminate.
Qed.

Ltac modelled_step :=
  first
    [ apply modelled_ret
    | apply modelled_errorString
    | apply getRune_modelled
    | apply UnreadRune_modelled
    | apply mustReadRune_modelled
    | apply SkipSpace_modelled
    | apply notEOF_modelled
    | apply skip_blanks_modelled
    | apply match_newlines_modelled
    | (apply modelled_bind; [|intros ? ? _])
    | match goal with
      | |- modelled ((if ?b then _ else _) _) => destruct b
      end ].

Lemma advance_loop_modelled format fuel : forall i s,
  (String.length format <= i + fuel)%nat ->
  modelled (fmt.advance_loop fuel format i s).
Proof.
  induction fuel as [|k IH]; intros i s Hlen.
  - cbn [fmt.advance_loop].
    destruct (Nat.ltb_spec i (String.length format)); [lia|]. discriminate.
  - cbn [fmt.advance_loop].
    destruct (Nat.ltb_spec i (String.length format)) as [Hi|]; [|discriminate].
    cbn [negb].
    destruct (utf8.DecodeRuneInString (string_drop i format)) as [c w] eqn:Hd.
    destruct (DecodeRune_drop_width format i c w Hi Hd) as [_ Hw].
    destruct (fmt.isSpace c) eqn:Hc.
    + pose proof (format_spaces_progress format (String.length format) i 0 false
                    c w Hi Hd Hc) as Hp.
      destruct (fmt.format_spaces (S (String.length format)) format i 0 false)
        as [[i' nls] ts].
      simpl in Hp.
      repeat modelled_step. apply IH. lia.
    + assert (Hlit : forall j s', (i <= j)%nat ->
                modelled ((fmt.mustReadRune ≫= (fun inputc =>
                   if negb (c =? inputc)
                   then fmt.UnreadRune ≫= (fun _ => fmt.ret (-1))
                   else fmt.advance_loop k format (j + w))) s')).
      { intros j s' Hj. repeat modelled_step. apply IH. lia. }
      destruct (c =? rune "%").
      * destruct (i + w =? String.length format)%nat; [discriminate|].
        destruct (utf8.DecodeRuneInString (string_drop (i + w) format))
          as [nextc w'].
        destruct (negb (nextc =? rune "%")); [discriminate|].
        apply Hlit. lia.
      * apply Hlit. lia.
Qed.

Lemma advance_modelled format s : modelled (fmt.advance format s).
Proof. apply advance_loop_modelled. lia. Qed.

Lemma accept_modelled ok s : modelled (fmt.accept ok s).
Proof.
  unfold fmt.accept. destruct (consume_spec ok true s) as (b & s1 & -> & _).
  discriminate.
Qed.

Lemma scanNumber_modelled digits haveDigits s :
  modelled (fmt.scanNumber digits haveDigits s).
Proof.
  unfold fmt.scanNumber.
  apply modelled_bind.
  - destruct haveDigits; [discriminate|].
    apply modelled_bind; [apply notEOF_modelled|]. intros _ s1 _.
    apply modelled_bind; [apply accept_modelled|]. intros b s2 _.
    destruct b; discriminate.
  - intros _ s1 _. apply modelled_bind.
    + unfold fmt.accept_rest. apply accept_all_modelled. lia.
    + intros _ s2 _. discriminate.
Qed.

Lemma verbs_modelled_at format : forall i,
  verbs_modelled format = true -> (i < String.length format)%nat ->
  verb_modelled (fst (utf8.DecodeRuneInString (string_drop i format))) = true.
Proof.
  induction format as [|a t IH]; intros i Hv Hi; [simpl in Hi; lia|].
  cbn [verbs_modelled] in Hv. apply andb_true_iff in Hv as [Hh Ht].
  destruct i as [|i]; [exact Hh|].
  cbn [string_drop]. apply IH; [exact Ht|]. simpl in Hi. lia.
Qed.

Lemma scanInt_modelled c s :
  verb_modelled c = true -> modelled (fmt.scanInt c s).
Proof.
  unfold verb_modelled, fmt.scanInt. intros Hv.
  apply andb_true_iff in Hv as [Hc Hd].
  destruct (c =? rune "c"); [discriminate|].
  apply modelled_bind; [apply SkipSpace_modelled|]. intros _ s1 _.
  apply modelled_bind; [apply notEOF_modelled|]. intros _ s2 _.
  apply modelled_bind.
  { destruct (fmt.indexRune "bdoUxXv" c >=? 0); discriminate. }
  intros u s3 Hok.
  destruct (fmt.indexRune "bdoUxXv" c >=? 0); [|discriminate Hok].
  simpl in Hd. rewrite Hd. cbn [negb].
  apply modelled_bind; [apply accept_modelled|]. intros _ s4 _.
  apply modelled_bind; [apply scanNumber_modelled|]. intros tok s5 _.
  destruct (fmt.ParseInt10 tok); discriminate.
Qed.

Lemma scanOne_modelled c s :
  verb_modelled c = true -> modelled (fmt.scanOne c s).
Proof.
  intros Hv. unfold fmt.scanOne.
  apply modelled_bind; [discriminate|]. intros _ s1 _.
  apply scanInt_modelled, Hv.
Qed.

Lemma scanPercent_modelled s : modelled (fmt.scanPercent s).
Proof.
  unfold fmt.scanPercent.
  apply modelled_bind; [apply SkipSpace_modelled|]. intros _ s1 _.
  apply modelled_bind; [apply notEOF_modelled|]. intros _ s2 _.
  apply modelled_bind; [apply accept_modelled|]. intros b s3 _.
  destruct b; discriminate.
Qed.

Lemma parsenum_loop_bounds s end_ fuel : forall newi num isnum,
  (newi <= end_)%nat ->
  (newi <= snd (fmt.parsenum_loop fuel s newi end_ num isnum) <= end_)%nat.
Proof.
  induction fuel as [|k IH]; intros newi num isnum Hle;
    cbn [fmt.parsenum_loop]; [simpl; lia|].
  destruct (Nat.ltb_spec newi end_); cbn [andb]; [|simpl; lia].
  destruct ((rune "0" <=? fmt.byte_at s newi)
            && (fmt.byte_at s newi <=? rune "9")); [|simpl; lia].
  destruct (fmt.tooLarge num); [simpl; lia|].
  match goal with |- context [fmt.parsenum_loop k s ?j end_ ?a ?b] =>
    specialize (IH j a b ltac:(lia)) end. lia.
Qed.

Lemma parsenum_bounds s i :
  (i < String.length s)%nat ->
  (i <= snd (fmt.parsenum s (S i) (String.length s - 1))
   < String.length s)%nat.
Proof.
  intros Hi. unfold fmt.parsenum.
  destruct (Nat.leb_spec (String.length s - 1) (S i)); [simpl; lia|].
  match goal with |- context [fmt.parsenum_loop ?f s ?j ?e ?a ?b] =>
    pose proof (parsenum_loop_bounds s e f j a b ltac:(lia)) end. lia.
Qed.

(** With enough fuel for the format, [doScanf] ends as the library does:
    no scan without operands, and no scan whose verbs are [%d] or refused,
    stops at a place the model leaves out. *)
Lemma doScanf_loop_modelled format nargs fuel : forall i stored s,
  (String.length format <= i + fuel)%nat ->
  nargs = 0%nat \/ verbs_modelled format = true ->
  snd (fmt.doScanf_loop fuel format i nargs stored s) <> Some fmt.NotModelled.
Proof.
  induction fuel as [|k IH]; intros i stored s Hlen Hv.
  - cbn [fmt.doScanf_loop].
    destruct (Nat.ltb_spec i (String.length format)); [lia|]. cbn [negb].
    destruct (length stored <? nargs)%nat; discriminate.
  - cbn [fmt.doScanf_loop].
    destruct (Nat.ltb_spec i (String.length format)) as [Hi|]; cbn [negb];
      [|destruct (length stored <? nargs)%nat; discriminate].
    pose proof (advance_modelled (string_drop i format) s) as Hadv.
    destruct (fmt.advance (string_drop i format) s) as [w s1|e];
      [|simpl; intros [= ->]; apply Hadv; reflexivity].
    destruct (Z.gtb_spec w 0); [apply IH; [lia|exact Hv]|].
    destruct (negb (fmt.byte_at format i =? rune "%")).
    { destruct (w <? 0); [discriminate|].
      destruct (length stored <? nargs)%nat; discriminate. }
    pose proof (parsenum_bounds format i Hi) as Hp.
    destruct (fmt.parsenum format (S i) (String.length format - 1))
      as [[wid widPresent] i2].
    simpl in Hp.
    destruct (utf8.DecodeRuneInString (string_drop i2 format)) as [c w'] eqn:Hd.
    destruct (DecodeRune_drop_width format i2 c w' ltac:(lia) Hd) as [_ Hw'].
    match goal with
    | |- context [(if negb (c =? rune "c") then fmt.SkipSpace else fmt.ret tt) ?s2] =>
      assert (Hsk : modelled ((if negb (c =? rune "c") then fmt.SkipSpace
                               else fmt.ret tt) s2))
        by (destruct (negb (c =? rune "c"));
            [apply SkipSpace_modelled|discriminate]);
      destruct ((if negb (c =? rune "c") then fmt.SkipSpace else fmt.ret tt) s2)
        as [u s3|e]; [|simpl; intros [= ->]; apply Hsk; reflexivity]
    end.
    destruct (c =? rune "%").
    { pose proof (scanPercent_modelled s3) as Hpc.
      destruct (fmt.scanPercent s3) as [u' s4|e];
        [apply IH; [lia|exact Hv]
        |simpl; intros [= ->]; apply Hpc; reflexivity]. }
    destruct (Nat.leb_spec nargs (length stored)); [discriminate|].
    destruct Hv as [Hz|Hv]; [lia|].
    pose proof (verbs_modelled_at format i2 Hv ltac:(lia)) as Hc.
    rewrite Hd in Hc. simpl in Hc.
    match goal with |- context [fmt.scanOne c ?s4] =>
      pose proof (scanOne_modelled c s4 Hc) as Hone;
      destruct (fmt.scanOne c s4) as [v s5|e];
        [apply IH; [lia|right; exact Hv]
        |simpl; intros [= ->]; apply Hone; reflexivity]
    end.
Qed.

Lemma Sscanf_modelled str format nargs :
  nargs = 0%nat \/ verbs_modelled format = true ->
  fmt.err (fmt.Sscanf str format nargs) <> Some fmt.NotModelled.
Proof.
  intros Hv. unfold fmt.Sscanf.
  pose proof (doScanf_loop_modelled format nargs (String.length format) 0 []
                (fmt.newScanState str) ltac:(lia) Hv) as H.
  destruct (fmt.doScanf_loop _ _ _ _ _ _) as [stored e]. exact H.
Qed.

(** The three scans of [parseDockerOutput] are within the model on every
    line. *)
Lemma parseDockerOutput_scans_modelled line :
  fmt.err (fmt.Sscanf line "Downloaded newer image for %*s" 0)
    <> Some fmt.NotModelled
  /\ fmt.err (fmt.Sscanf line "%dB" 1) <> Some fmt.NotModelled
  /\ fmt.err (fmt.Sscanf line "Pulling fs layer" 0) <> Some fmt.NotModelled.
Proof.
  repeat split; apply Sscanf_modelled;
    solve [left; reflexivity | right; vm_compute; reflexivity].
Qed.

(** The layer counter is raised when [Sscanf] reports a positive count for
    a format without operands, which it never does. *)
Lemma scrape_line_layers st line : layers (scrape_line st line) = layers st.
Proof.
  unfold scrape_line.
  rewrite !Sscanf_no_operands. change (0 >? 0) with false. reflexivity.
Qed.

Lemma scrape_line_res st line : same_but_bytes (res st) (res (scrape_line st line)).
Proof.
  unfold scrape_line, same_but_bytes.
  rewrite !Sscanf_no_operands. change (0 >? 0) with false. cbn [res].
  destruct (fmt.n (fmt.Sscanf line "%dB" 1) =? 1); cbn; tauto.
Qed.

Lemma fold_left_step {A B} (f : A -> B -> A) (x : B) (l : list B) (a : A) :
  fold_left f (x :: l) a = fold_left f l (f a x).
Proof. reflexivity. Qed.

Lemma scrape_lines_invariant ls st :
  layers (fold_left scrape_line ls st) = layers st
  /\ same_but_bytes (res st) (res (fold_left scrape_line ls st)).
Proof.
  revert st. induction ls as [|l ls IH]; intros st.
  - unfold same_but_bytes. cbn [fold_left]. tauto.
  - rewrite fold_left_step.
    destruct (IH (scrape_line st l)) as [Hl Hr].
    split.
    + rewrite Hl. apply scrape_line_layers.
    + pose proof (scrape_line_res st l) as Hs.
      unfold same_but_bytes in *. intuition congruence.
Qed.

Lemma parseDockerOutput_same_but_bytes r out :
  same_but_bytes r (parseDockerOutput r out).
Proof.
  unfold parseDockerOutput.
  destruct (scrape_lines_invariant (splitLines out)
              {| layers := 0; bytes := 0; res := r |}) as [Hl Hr].
  rewrite Hl. cbn [layers res]. change (0 >? 0) with false. exact Hr.
Qed.

Example parseDockerOutput_bytes :
  Bytes (parseDockerOutput blank_result "1234B") = 1234.
Proof. vm_compute. reflexivity. Qed.

Example parseDockerOutput_bytes_last :
  Bytes (parseDockerOutput blank_result (join_lines ["12B"; "x"; "34B"])) = 34.
Proof. vm_compute. reflexivity. Qed.

Example parseDockerOutput_neither :
  parseDockerOutput blank_result (join_lines ["latest: Pulling from x"; "done"])
  = blank_result.
Proof. vm_compute. reflexivity. Qed.

(** [%dB] counts an operand as soon as the integer is read, whether a [B]
    follows or not. *)
Example parseDockerOutput_digit_prefix :
  Bytes (parseDockerOutput blank_result "4f4fb700ef54: Pull complete") = 4.
Proof. vm_compute. reflexivity. Qed.

Example Sscanf_trailing_space :
  fmt.Sscanf "Pulling " "Pulling fs layer" 0
  = fmt.mk_scanned 0 [] (Some fmt.ScanError).
Proof. vm_compute. reflexivity. Qed.

(** C4: three [Pulling fs layer] lines are to give [layerCount = 3].
    [Sscanf] returns the number of operands it has filled in, and the layer
    format has none: the test [n > 0] of line 298 never holds, the counter is
    never raised, and [Layers] stays what it was, absent, on every output.
    The byte count of a line [1234B] is found as claimed. *)
Theorem parseDockerOutput_three_layers :
  Layers (parseDockerOutput blank_result three_layer_lines) = 0
  /\ present (Layers (parseDockerOutput blank_result three_layer_lines)) = false
  /\ Bytes (parseDockerOutput blank_result "1234B") = 1234
  /\ forall r out, Layers (parseDockerOutput r out) = Layers r.
Proof.
  split; [vm_compute; reflexivity|].
  split; [vm_compute; reflexivity|].
  split; [vm_compute; reflexivity|].
  intros r out. apply (parseDockerOutput_same_but_bytes r out).
Qed.

(** ** One pull *)

Lemma pull_Image img o : Image (pull img o) = img.
Proof.
  unfold pull, record_ctx_error, record_exit_error, new_result.
  match goal with |- Image (parseDockerOutput ?r _) = _ =>
    destruct (parseDockerOutput_same_but_bytes r (output o)) as [H _];
    rewrite H end.
  destruct (err o), (ctx_Err o 1), (ctx_Err o 2); reflexivity.
Qed.

Lemma pull_Success img o :
  Success (pull img o) = is_nil (err o) && is_nil (ctx_Err o 0).
Proof.
  unfold pull, record_ctx_error, record_exit_error, new_result.
  match goal with |- Success (parseDockerOutput ?r _) = _ =>
    destruct (parseDockerOutput_same_but_bytes r (output o))
      as (_ & _ & H & _); rewrite H end.
  destruct (err o), (ctx_Err o 1), (ctx_Err o 2); reflexivity.
Qed.

(** Once the deadline has fired, every later call of [ctx.Err()] says so. *)
Lemma ctx_Err_monotone o j k :
  (j <= k)%nat -> ctx_Err o j = Some DeadlineExceeded ->
  ctx_Err o k = Some DeadlineExceeded.
Proof.
  unfold ctx_Err. intros Hjk.
  destruct (Nat.ltb_spec j (nil_reads o)); [discriminate|].
  destruct (Nat.ltb_spec k (nil_reads o)); [lia|reflexivity].
Qed.

Lemma pull_Error img o :
  Error (pull img o) =
  match ctx_Err o 1 with
  | Some _ => DeadlineExceeded
  | None => match err o with Some e => e | None => EmptyString end
  end.
Proof.
  unfold pull, record_ctx_error, record_exit_error, new_result.
  match goal with |- Error (parseDockerOutput ?r _) = _ =>
    destruct (parseDockerOutput_same_but_bytes r (output o))
      as (_ & _ & _ & _ & _ & _ & H & _); rewrite H end.
  destruct (ctx_Err o 1) as [e1|] eqn:H1.
  - assert (H2 : ctx_Err o 2 = Some DeadlineExceeded).
    { apply (ctx_Err_monotone o 1 2); [lia|].
      unfold ctx_Err in *. destruct (1 <? nil_reads o)%nat; congruence. }
    rewrite H2. destruct (err o); reflexivity.
  - destruct (err o); reflexivity.
Qed.

(** The first half of the invariant holds as it is read at line 73. *)
Lemma pull_Success_iff img o :
  Success (pull img o) = true <-> err o = None /\ ctx_Err o 0 = None.
Proof.
  rewrite pull_Success.
  destruct (err o), (ctx_Err o 0); simpl; split; intros; intuition congruence.
Qed.

(** The second half holds when the deadline has not fired between the two
    reads of the context. *)
Lemma pull_Success_no_Error img o :
  ctx_Err o 1 = None -> Success (pull img o) = true ->
  Error (pull img o) = EmptyString.
Proof.
  intros H1 Hs. apply pull_Success_iff in Hs as [He _].
  rewrite pull_Error, H1, He. reflexivity.
Qed.

(** C8: [success] is to imply an empty [error].  The body reads [ctx.Err()]
    at line 73 for [Success] and again at line 82 for [Error]; a command
    that ends well just before the deadline, with the deadline firing between
    the two reads, yields [Success = true] together with the timeout text in
    [Error]. *)
Theorem pull_late_success :
  err late_success = None
  /\ ctx_Err late_success 0 = None
  /\ ctx_Err late_success 1 = Some DeadlineExceeded
  /\ Success (pull "ubuntu:latest" late_success) = true
  /\ Error (pull "ubuntu:latest" late_success) = "context deadline exceeded".
Proof. repeat split; vm_compute; reflexivity. Qed.

(** C10: when the command has returned an error and the deadline has fired
    by line 82, the error field holds the text of the process error after
    line 80, and the assignment of line 83, which comes later, replaces it
    with the text of the context's error. *)
Theorem pull_timeout_overwrites img o :
  err o <> None -> ctx_Err o 1 <> None ->
  Some (Error (record_exit_error o (new_result img o))) = err o
  /\ Error (pull img o) = DeadlineExceeded.
Proof.
  intros He H1. split.
  - unfold record_exit_error. destruct (err o); [reflexivity|congruence].
  - rewrite pull_Error. destruct (ctx_Err o 1); [reflexivity|congruence].
Qed.

Lemma pull_timeout_overwrites_witness :
  Some (Error (record_exit_error killed_at_deadline
                 (new_result "ubuntu:latest" killed_at_deadline)))
  = Some "signal: killed"
  /\ Error (pull "ubuntu:latest" killed_at_deadline) = DeadlineExceeded.
Proof.
  apply (pull_timeout_overwrites "ubuntu:latest" killed_at_deadline);
    vm_compute; discriminate.
Defined.

(** ** Summary statistics *)

Lemma summary_loop_no_success i results a :
  Forall (fun r => Success r = false) results ->
  summary_loop i results a = a.
Proof.
  intros H. revert i a.
  induction H as [|r rest Hr _ IH]; intros i a; simpl; [reflexivity|].
  unfold summary_step. rewrite Hr. apply IH.
Qed.

(** Past the first position the loop folds [min] and [max] over the times
    of the successful results. *)
Lemma summary_loop_tail i results a :
  0 < i ->
  acc_min (summary_loop i results a)
  = fold_left Z.min (successful_times results) (acc_min a)
  /\ acc_max (summary_loop i results a)
     = fold_left Z.max (successful_times results) (acc_max a).
Proof.
  revert i a. unfold successful_times.
  induction results as [|r rest IH]; intros i a Hi; simpl; [tauto|].
  destruct (IH (i + 1) (summary_step i r a) ltac:(lia)) as [Hmin Hmax].
  rewrite Hmin, Hmax. unfold summary_step.
  destruct (Success r); simpl; [|tauto].
  replace (i =? 0) with false by (symmetry; apply Z.eqb_neq; lia). simpl.
  split; f_equal.
  - destruct (Z.ltb_spec (PullTimeMs r) (acc_min a)); lia.
  - destruct (Z.gtb_spec (PullTimeMs r) (acc_max a)); lia.
Qed.

(** With a successful first result of non-negative time, the minimum and
    the maximum are those of the successful results. *)
Lemma printSummary_head_success r rest :
  Success r = true -> 0 <= PullTimeMs r ->
  Some (minMs (printSummary (r :: rest))) = least (successful_times (r :: rest))
  /\ Some (maxMs (printSummary (r :: rest)))
     = greatest (successful_times (r :: rest)).
Proof.
  intros Hs Ht. unfold printSummary, successful_times. simpl.
  rewrite Hs. simpl.
  match goal with |- context [summary_loop (0 + 1) rest ?a] =>
    destruct (summary_loop_tail (0 + 1) rest a ltac:(lia)) as [Hmin Hmax] end.
  rewrite Hmin, Hmax. unfold summary_step, successful_times.
  rewrite Hs. simpl.
  destruct (Z.gtb_spec (PullTimeMs r) 0); split; try reflexivity.
  replace (PullTimeMs r) with 0 by lia. reflexivity.
Qed.

(** With a failed first result the minimum starts from 0 and is never
    initialised from a successful time. *)
Lemma printSummary_head_failure r rest :
  Success r = false ->
  minMs (printSummary (r :: rest)) = fold_left Z.min (successful_times rest) 0.
Proof.
  intros Hs. unfold printSummary. simpl.
  unfold summary_step at 1. rewrite Hs.
  match goal with |- context [summary_loop (0 + 1) rest ?a] =>
    destruct (summary_loop_tail (0 + 1) rest a ltac:(lia)) as [Hmin _] end.
  rewrite Hmin. reflexivity.
Qed.

Example printSummary_spec_example :
  printSummary [timed true 100; timed true 300; timed false 0]
  = {| succeeded := 2; total := 3; minMs := 100; maxMs := 300;
       avgMs := 200%float |}.
Proof. vm_compute. reflexivity. Qed.

(** C6: the minimum is to be the least pull time of the successful results
    wherever the failed ones stand.  The test [i == 0] of line 318 sets the
    minimum from the result at index 0 only when that result is successful;
    after a failed first result the minimum stays at its initial 0.  On a
    failed result followed by a successful one of 100 ms the summary reports
    [min = 0], where the least successful time is 100. *)
Theorem printSummary_failed_first :
  minMs (printSummary [timed false 0; timed true 100]) = 0
  /\ least (successful_times [timed false 0; timed true 100]) = Some 100
  /\ maxMs (printSummary [timed false 0; timed true 100]) = 100
  /\ succeeded (printSummary [timed false 0; timed true 100]) = 1.
Proof. repeat split; vm_compute; reflexivity. Qed.

(** C7, as stated: without a successful result the average would be a
    defined number.  On a single failed result it is not. *)
Lemma printSummary_average_undefined :
  ~ defined_average (printSummary [timed false 0]).
Proof. unfold defined_average. vm_compute. discriminate. Qed.

(** C7, amended: without a successful result the division of line 327 is
    [float64(0) / float64(0)]; no guard precedes it, and the average that is
    printed is the NaN it yields, beside a count, a minimum and a maximum
    of 0. *)
Theorem printSummary_zero_success results :
  Forall (fun r => Success r = false) results ->
  PrimFloat.is_nan (avgMs (printSummary results)) = true
  /\ avgMs (printSummary results) = (float64_of_int 0 / float64_of_int 0)%float
  /\ succeeded (printSummary results) = 0
  /\ minMs (printSummary results) = 0
  /\ maxMs (printSummary results) = 0.
Proof.
  intros H. unfold printSummary.
  rewrite (summary_loop_no_success 0 results _ H). simpl.
  repeat split.
Qed.

Lemma printSummary_zero_success_witness :
  PrimFloat.is_nan (avgMs (printSummary [timed false 7; timed false 9])) = true.
Proof.
  apply (printSummary_zero_success [timed false 7; timed false 9]).
  repeat constructor.
Defined.

(** ** Warmup *)

Lemma removals_app tr tr' :
  removals (tr ++ tr') = (removals tr + removals tr')%nat.
Proof. unfold removals. rewrite List.filter_app, length_app. reflexivity. Qed.

Lemma warmup_iteration_later imageURL iterations delay env i tr rs :
  1 < i ->
  exists r,
    CacheState r = "warm"
    /\ warmup_iteration imageURL iterations delay env i (tr, rs)
       = ((tr ++ DockerPull imageURL
              :: (if i <? iterations then [DockerRmi imageURL; Sleep delay]
                  else []))%list,
          (rs ++ [r])%list).
Proof.
  intros Hi. unfold warmup_iteration.
  replace (i =? 1) with false by (symmetry; apply Z.eqb_neq; lia).
  replace (i >? 1) with true by (symmetry; apply Z.gtb_lt; lia).
  destruct (env i) as [elapsed e]. eexists. split; [|f_equal].
  - reflexivity.
  - destruct (i <? iterations); [|reflexivity].
    rewrite <- List.app_assoc. reflexivity.
Qed.

(** After the first iteration every further one adds a warm result, and
    every one but the last a removal. *)
Lemma warmup_loop_warm imageURL iterations delay env : forall fuel i tr rs,
  1 < i -> Z.of_nat fuel = iterations + 1 - i ->
  removals (fst (warmup_loop fuel imageURL iterations delay env i (tr, rs)))
  = (removals tr + (fuel - 1))%nat
  /\ map CacheState
       (snd (warmup_loop fuel imageURL iterations delay env i (tr, rs)))
     = (map CacheState rs ++ repeat "warm" fuel)%list
  /\ (fuel <> 0%nat ->
      exists tr', fst (warmup_loop fuel imageURL iterations delay env i (tr, rs))
                  = (tr' ++ [DockerPull imageURL])%list).
Proof.
  induction fuel as [|k IH]; intros i tr rs Hi Hk.
  - simpl. rewrite List.app_nil_r. repeat split; [lia|congruence].
  - cbn [warmup_loop].
    destruct (Z.leb_spec i iterations); [|lia].
    destruct (warmup_iteration_later imageURL iterations delay env i tr rs Hi)
      as (r & Hwarm & ->).
    destruct (Z.ltb_spec i iterations).
    + destruct (IH (i + 1)
                  (tr ++ [DockerPull imageURL; DockerRmi imageURL; Sleep delay])%list
                  (rs ++ [r])%list) as (Hr & Hc & Hl); [lia|lia|].
      rewrite Hr, Hc.
      rewrite !removals_app, List.map_app, <- List.app_assoc. cbn. rewrite Hwarm.
      split; [lia|]. split; [reflexivity|].
      intros _. apply Hl. lia.
    + assert (k = 0%nat) by lia. subst k. cbn [warmup_loop fst snd].
      rewrite !removals_app, List.map_app. cbn. rewrite Hwarm.
      split; [lia|]. split; [reflexivity|].
      intros _. eexists. reflexivity.
Qed.

(** A warmup of [n >= 1] iterations, [n] below the greatest [int]: one cold
    label followed by warm ones, [n] removal attempts, and a pull as the
    last event. *)
Lemma warmup_removals imageURL iterations delay env :
  1 <= iterations < 2 ^ 63 - 1 ->
  removals (fst (warmupCmd imageURL iterations delay env)) = Z.to_nat iterations
  /\ map CacheState (snd (warmupCmd imageURL iterations delay env))
     = "cold" :: repeat "warm" (Z.to_nat iterations - 1)
  /\ exists tr', fst (warmupCmd imageURL iterations delay env)
                 = (tr' ++ [DockerPull imageURL])%list.
Proof.
  intros [Hn _]. unfold warmupCmd.
  destruct (Z.to_nat iterations) as [|k] eqn:Hk; [lia|].
  cbn [warmup_loop]. destruct (Z.leb_spec 1 iterations); [|lia].
  unfold warmup_iteration.
  destruct (env 1) as [elapsed e].
  replace (S k - 1)%nat with k by lia.
  change (1 =? 1) with true. change (1 >? 1) with false.
  change (1 + 1) with 2. cbv iota. cbn [app].
  destruct (Z.ltb_spec 1 iterations).
  - match goal with |- context [warmup_loop k _ _ _ _ _ (?tr, ?rs)] =>
      destruct (warmup_loop_warm imageURL iterations delay env k 2 tr rs)
        as (Hr & Hc & Hl); [lia|lia|] end.
    rewrite Hr, Hc. split; [cbn; lia|]. split; [reflexivity|].
    apply Hl. lia.
  - assert (k = 0%nat) by lia. subst k. cbn.
    split; [reflexivity|]. split; [reflexivity|].
    exists [DockerRmi imageURL]. reflexivity.
Qed.

(** C9, as stated: a run of three iterations would make exactly two removal
    attempts.  It makes three. *)
Lemma warmup_three_removals_not_two :
  removals (fst (warmupCmd "ubuntu:latest" 3 1000 always_ok)) <> 2%nat.
Proof. vm_compute. discriminate. Qed.

(** C9, amended: with three iterations, iteration 1 is labelled cold and
    iterations 2 and 3 warm; the image is removed before iteration 1 and
    after each iteration but the last, which makes three removal attempts
    (before 1, between 1 and 2, between 2 and 3) and none after the last
    pull. *)
Theorem warmup_three_iterations imageURL delay env :
  map CacheState (snd (warmupCmd imageURL 3 delay env)) = ["cold"; "warm"; "warm"]
  /\ map Iteration (snd (warmupCmd imageURL 3 delay env)) = [1; 2; 3]
  /\ fst (warmupCmd imageURL 3 delay env)
     = [DockerRmi imageURL; DockerPull imageURL;
        DockerRmi imageURL; Sleep delay; DockerPull imageURL;
        DockerRmi imageURL; Sleep delay; DockerPull imageURL]
  /\ removals (fst (warmupCmd imageURL 3 delay env)) = 3%nat.
Proof.
  unfold warmupCmd. change (Z.to_nat 3) with 3%nat.
  cbn [warmup_loop].
  change (1 <=? 3) with true. change (1 + 1) with 2.
  change (2 <=? 3) with true. change (2 + 1) with 3.
  change (3 <=? 3) with true. cbv iota.
  unfold warmup_iteration.
  destruct (env 1) as [t1 e1], (env 2) as [t2 e2], (env 3) as [t3 e3].
  cbn. repeat split; reflexivity.
Qed.

(** ** The benchmark runner *)

Section Counting.

Local Open Scope nat_scope.

Variable f : pc -> bool.

Lemma count_pc_cons w ws :
  count_pc f (w :: ws) = Nat.b2n (f (snd w)) + count_pc f ws.
Proof. unfold count_pc. simpl. destruct (f (snd w)); reflexivity. Qed.

Lemma count_pc_app ws ws' :
  count_pc f (ws ++ ws') = count_pc f ws + count_pc f ws'.
Proof.
  induction ws as [|w ws IH]; [reflexivity|].
  change ((w :: ws) ++ ws')%list with (w :: (ws ++ ws'))%list.
  rewrite !count_pc_cons, IH. lia.
Qed.

Lemma count_pc_insert (ws : list (string * pc)) i img p p' :
  ws !! i = Some (img, p) ->
  count_pc f (<[i := (img, p')]> ws) + Nat.b2n (f p)
  = count_pc f ws + Nat.b2n (f p').
Proof.
  revert i. induction ws as [|w ws IH]; intros i Hi; [discriminate|].
  destruct i as [|i]; simpl in Hi.
  - injection Hi as ->. simpl. rewrite !count_pc_cons. simpl. lia.
  - simpl. rewrite !count_pc_cons. specialize (IH i Hi). lia.
Qed.

Lemma count_pc_pos (ws : list (string * pc)) :
  0 < count_pc f ws -> exists i img p, ws !! i = Some (img, p) /\ f p = true.
Proof.
  induction ws as [|[img p] ws IH]; [unfold count_pc; simpl; lia|].
  rewrite count_pc_cons. simpl. destruct (f p) eqn:Hp.
  - intros _. exists 0, img, p. split; [reflexivity|assumption].
  - simpl. intros H. destruct (IH H) as (i & img' & p' & Hi & Hp').
    exists (S i), img', p'. split; assumption.
Qed.

Lemma count_pc_lookup (ws : list (string * pc)) i img p :
  ws !! i = Some (img, p) -> f p = true -> 0 < count_pc f ws.
Proof.
  revert i. induction ws as [|w ws IH]; intros i Hi Hp; [discriminate|].
  rewrite count_pc_cons. destruct i as [|i]; simpl in Hi.
  - injection Hi as ->. simpl. rewrite Hp. simpl. lia.
  - specialize (IH i Hi Hp). lia.
Qed.

End Counting.

Lemma map_fst_insert (ws : list (string * pc)) i img p p' :
  ws !! i = Some (img, p) -> map fst (<[i := (img, p')]> ws) = map fst ws.
Proof.
  revert i. induction ws as [|w ws IH]; intros i Hi; [discriminate|].
  destruct i as [|i]; simpl in Hi.
  - injection Hi as ->. reflexivity.
  - simpl. f_equal. apply IH, Hi.
Qed.

Lemma published_images_app ws ws' :
  published_images (ws ++ ws') = (published_images ws ++ published_images ws')%list.
Proof.
  unfold published_images. rewrite List.filter_app, List.map_app. reflexivity.
Qed.

Lemma published_images_same (ws : list (string * pc)) i img p p' :
  ws !! i = Some (img, p) -> published p = published p' ->
  published_images (<[i := (img, p')]> ws) = published_images ws.
Proof.
  unfold published_images.
  revert i. induction ws as [|w ws IH]; intros i Hi Hp; [discriminate|].
  destruct i as [|i]; simpl in Hi.
  - injection Hi as ->. simpl. rewrite Hp. destruct (published p'); reflexivity.
  - simpl. destruct (published (snd w)); simpl; rewrite (IH i Hi Hp); reflexivity.
Qed.

Lemma published_images_new (ws : list (string * pc)) i img p p' :
  ws !! i = Some (img, p) -> published p = false -> published p' = true ->
  published_images (<[i := (img, p')]> ws) ≡ₚ img :: published_images ws.
Proof.
  unfold published_images.
  revert i. induction ws as [|w ws IH]; intros i Hi Hp Hp'; [discriminate|].
  destruct i as [|i]; simpl in Hi.
  - injection Hi as ->. simpl. rewrite Hp, Hp'. reflexivity.
  - simpl. specialize (IH i Hi Hp Hp').
    destruct (published (snd w)); simpl.
    + rewrite IH. apply Permutation_swap.
    + exact IH.
Qed.

Lemma published_images_all (ws : list (string * pc)) :
  count_pc running ws = 0%nat -> published_images ws = map fst ws.
Proof.
  unfold published_images.
  induction ws as [|[img p] ws IH]; [reflexivity|].
  rewrite count_pc_cons. simpl. intros H.
  destruct p; simpl in H; try discriminate.
  simpl. f_equal. apply IH. exact H.
Qed.

Lemma all_exited (ws : list (string * pc)) :
  count_pc running ws = 0%nat -> Forall (fun w => snd w = Exited) ws.
Proof.
  induction ws as [|[img p] ws IH]; [constructor|].
  rewrite count_pc_cons. simpl. intros H.
  destruct p; simpl in H; try discriminate.
  constructor; [reflexivity|apply IH, H].
Qed.

Lemma carries_own_insert (ws : list (string * pc)) i w :
  Forall carries_own ws -> carries_own w -> Forall carries_own (<[i := w]> ws).
Proof.
  intros H Hw. revert i. induction H as [|x ws Hx Hws IH]; intros i.
  - constructor.
  - destruct i as [|i]; simpl; constructor; auto.
Qed.

Lemma carries_own_lookup (ws : list (string * pc)) i w :
  Forall carries_own ws -> ws !! i = Some w -> carries_own w.
Proof.
  intros H Hi. exact (Forall_lookup_1 _ _ _ _ H Hi).
Qed.

Lemma total_weight_app ws ws' :
  total_weight (ws ++ ws') = (total_weight ws + total_weight ws')%nat.
Proof.
  induction ws as [|w ws IH]; [reflexivity|].
  simpl. rewrite IH. lia.
Qed.

Lemma total_weight_insert (ws : list (string * pc)) i img p p' :
  ws !! i = Some (img, p) ->
  (total_weight (<[i := (img, p')]> ws) + weight p
   = total_weight ws + weight p')%nat.
Proof.
  revert i. induction ws as [|w ws IH]; intros i Hi; [discriminate|].
  destruct i as [|i]; simpl in Hi.
  - injection Hi as ->. simpl. lia.
  - simpl. specialize (IH i Hi). lia.
Qed.

(** *** The invariant *)

Lemma inv_init args concurrency s0 :
  benchmark_init args concurrency = Some s0 -> inv args s0.
Proof.
  unfold benchmark_init. destruct (concurrency <? 0); [discriminate|].
  intros [= <-]. constructor; simpl; try reflexivity; try constructor.
  apply Nat.le_0_l.
Qed.

Ltac count_facts Hi p' :=
  let Hh := fresh "Hh" in
  let Hr := fresh "Hr" in
  let Hc := fresh "Hc" in
  pose proof (count_pc_insert holding _ _ _ _ p' Hi) as Hh;
  pose proof (count_pc_insert running _ _ _ _ p' Hi) as Hr;
  pose proof (count_pc_insert critical _ _ _ _ p' Hi) as Hc;
  simpl in Hh, Hr, Hc.

Lemma inv_spawn args s img rest :
  inv args s -> main s = Looping (img :: rest) ->
  inv args {| main := Looping rest;
              workers := (workers s ++ [(img, AtAcquire)])%list;
              sem_len := sem_len s; sem_cap := sem_cap s; mu := mu s;
              wg := S (wg s); results := results s |}.
Proof.
  intros [Hsem Hcap Hwg Hmu Hargs Hres Hcar Hsnap Hpul] Hm.
  rewrite Hm in Hargs.
  constructor; simpl; try assumption.
  - rewrite count_pc_app, <- Hsem. cbn. lia.
  - rewrite count_pc_app, <- Hwg. cbn. lia.
  - rewrite count_pc_app, Hmu. cbn. lia.
  - rewrite List.map_app, <- List.app_assoc. exact Hargs.
  - rewrite published_images_app. cbn. rewrite List.app_nil_r. exact Hres.
  - apply Forall_app. split; [assumption|]. repeat constructor.
  - apply Forall_app. split; [assumption|]. repeat constructor.
Qed.

Lemma inv_join args s :
  inv args s -> main s = Looping [] -> wg s = 0%nat ->
  inv args {| main := Joined; workers := workers s; sem_len := sem_len s;
              sem_cap := sem_cap s; mu := mu s; wg := wg s;
              results := results s |}.
Proof.
  intros [Hsem Hcap Hwg Hmu Hargs Hres Hcar Hsnap Hpul] Hm H0.
  rewrite Hm in Hargs. rewrite List.app_nil_r in Hargs.
  constructor; simpl; try assumption. split; assumption.
Qed.

(** Inside the critical section there is one worker at most. *)
Lemma critical_unique (ws : list (string * pc)) i j a p b q :
  (count_pc critical ws <= 1)%nat ->
  ws !! i = Some (a, p) -> ws !! j = Some (b, q) ->
  critical p = true -> critical q = true -> i = j.
Proof.
  intros Hle Hi Hj Hp Hq.
  destruct (Nat.eq_dec i j) as [|Hij]; [assumption|exfalso].
  pose proof (count_pc_insert critical _ _ _ _ Exited Hi) as Hc.
  rewrite Hp in Hc. simpl in Hc.
  assert (Hj' : <[i := (a, Exited)]> ws !! j = Some (b, q))
    by (rewrite list_lookup_insert_ne; assumption).
  pose proof (count_pc_lookup critical _ _ _ _ Hj' Hq). lia.
Qed.

(** When the worker inside the critical section leaves its store behind,
    nobody else holds a copy of the slice. *)
Lemma snapshot_after_store (ws : list (string * pc)) i img p rs' :
  (count_pc critical ws <= 1)%nat ->
  ws !! i = Some (img, p) -> critical p = true ->
  Forall (fresh_snapshot rs') (<[i := (img, AtUnlock)]> ws).
Proof.
  intros Hle Hi Hp. apply Forall_lookup. intros j [b q] Hj.
  destruct (Nat.eq_dec i j) as [<-|Hij].
  - rewrite list_lookup_insert_eq in Hj by (eapply lookup_lt_Some; exact Hi).
    injection Hj as <- <-. exact I.
  - rewrite list_lookup_insert_ne in Hj by assumption.
    unfold fresh_snapshot. simpl. destruct q; try exact I.
    exfalso. apply Hij.
    exact (critical_unique ws i j img p b _ Hle Hi Hj Hp eq_refl).
Qed.

Lemma inv_work args s i o s' :
  inv args s -> work i o s = Some s' -> inv args s'.
Proof.
  intros [Hsem Hcap Hwg Hmu Hargs Hres Hcar Hsnap Hpul] Hstep.
  unfold work in Hstep.
  destruct (workers s !! i) as [[img p]|] eqn:Hi; [|discriminate].
  pose proof (carries_own_lookup _ _ _ Hcar Hi) as Hown.
  pose proof (Forall_lookup_1 _ _ _ _ Hsnap Hi) as Hold.
  assert (Hone : (count_pc critical (workers s) <= 1)%nat)
    by (rewrite Hmu; destruct (mu s); simpl; lia).
  assert (Hmain : forall p',
    match main s with
    | Looping rest => (map fst (<[i := (img, p')]> (workers s)) ++ rest)%list = args
    | Joined => map fst (<[i := (img, p')]> (workers s)) = args /\ wg s = 0%nat
    end).
  { intros p'. rewrite (map_fst_insert _ _ _ _ p' Hi). exact Hargs. }
  destruct p as [| |r|r|r old| | | |].
  - (* the gate is entered *)
    destruct (Nat.ltb_spec (sem_len s) (sem_cap s)); [|discriminate].
    injection Hstep as <-. count_facts Hi AtPull.
    constructor; simpl; try assumption; try lia.
    + apply Hmain.
    + rewrite (published_images_same _ _ _ _ AtPull Hi eq_refl). exact Hres.
    + apply carries_own_insert; [assumption|exact I].
    + apply Forall_insert; [assumption|exact I].
  - (* the pull ends *)
    injection Hstep as <-. count_facts Hi (AtLock (pull img o)).
    constructor; simpl; try assumption; try lia.
    + apply Hmain.
    + rewrite (published_images_same _ _ _ _ (AtLock (pull img o)) Hi eq_refl).
      exact Hres.
    + apply carries_own_insert; [assumption|]. exists o. reflexivity.
    + apply Forall_insert; [assumption|exact I].
  - (* the mutex is taken *)
    destruct (mu s) eqn:Hmus; [discriminate|].
    injection Hstep as <-. count_facts Hi (AtAppend r).
    constructor; simpl in *; try assumption; try lia.
    + apply Hmain.
    + rewrite (published_images_same _ _ _ _ (AtAppend r) Hi eq_refl).
      exact Hres.
    + apply carries_own_insert; [assumption|exact Hown].
    + apply Forall_insert; [assumption|exact I].
  - (* the shared slice is read *)
    injection Hstep as <-. count_facts Hi (AtStore r (results s)).
    constructor; simpl; try assumption; try lia.
    + apply Hmain.
    + rewrite (published_images_same _ _ _ _ (AtStore r (results s)) Hi eq_refl).
      exact Hres.
    + apply carries_own_insert; [assumption|exact Hown].
    + apply Forall_insert; [assumption|reflexivity].
  - (* the longer slice is stored *)
    injection Hstep as <-. count_facts Hi AtUnlock.
    destruct Hown as [o' Hr']. simpl in Hr'.
    unfold fresh_snapshot in Hold. simpl in Hold. subst old.
    constructor; simpl; try assumption; try lia.
    + apply Hmain.
    + rewrite List.map_app, (published_images_new _ _ _ _ AtUnlock Hi eq_refl eq_refl).
      simpl. rewrite Hres, Hr', pull_Image.
      symmetry. apply Permutation_cons_append.
    + apply carries_own_insert; [assumption|exact I].
    + exact (snapshot_after_store _ _ _ _ _ Hone Hi eq_refl).
    + apply Forall_app. split; [assumption|].
      constructor; [|constructor]. exists o'. rewrite Hr', pull_Image. reflexivity.
  - (* the mutex is given back *)
    injection Hstep as <-. count_facts Hi AtRelease.
    assert (count_pc critical (workers s) = 1%nat).
    { pose proof (count_pc_lookup critical _ _ _ _ Hi eq_refl). lia. }
    constructor; simpl; try assumption; try lia.
    + apply Hmain.
    + rewrite (published_images_same _ _ _ _ AtRelease Hi eq_refl). exact Hres.
    + apply carries_own_insert; [assumption|exact I].
    + apply Forall_insert; [assumption|exact I].
  - (* the slot is given back *)
    destruct (sem_len s) as [|n] eqn:Hlen; [discriminate|].
    injection Hstep as <-. count_facts Hi AtDone.
    constructor; simpl; try assumption; try lia.
    + apply Hmain.
    + rewrite (published_images_same _ _ _ _ AtDone Hi eq_refl). exact Hres.
    + apply carries_own_insert; [assumption|exact I].
    + apply Forall_insert; [assumption|exact I].
  - (* the worker ends *)
    destruct (wg s) as [|n] eqn:Hn; [discriminate|].
    injection Hstep as <-. count_facts Hi Exited.
    constructor; simpl; try assumption; try lia.
    + specialize (Hmain Exited). destruct (main s); [exact Hmain|].
      destruct Hmain as [_ Hz]. discriminate.
    + rewrite (published_images_same _ _ _ _ Exited Hi eq_refl). exact Hres.
    + apply carries_own_insert; [assumption|exact I].
    + apply Forall_insert; [assumption|exact I].
  - discriminate.
Qed.

(** On a gate without buffer a sender would need a receiver to meet; the
    only receivers are workers that hold a slot, and there is none. *)
Lemma inv_no_handoff args s i j : inv args s -> handoff i j s = None.
Proof.
  intros [Hsem Hcap _ _ _ _ _ _ _]. unfold handoff.
  destruct (Nat.eqb_spec (sem_cap s) 0) as [H0|]; [|reflexivity].
  destruct (workers s !! i) as [[a pa]|]; [|reflexivity].
  destruct pa; try reflexivity.
  destruct (workers s !! j) as [[b pb]|] eqn:Hj; [|reflexivity].
  destruct pb; try reflexivity.
  pose proof (count_pc_lookup holding _ _ _ _ Hj eq_refl). lia.
Qed.

Lemma inv_step args a s s' : inv args s -> step a s = Some s' -> inv args s'.
Proof.
  intros Hinv Hstep. destruct a as [| |i o|i j]; simpl in Hstep.
  - destruct (main s) as [[|img rest]|] eqn:Hm; try discriminate.
    injection Hstep as <-. apply inv_spawn; assumption.
  - destruct (main s) as [[|img rest]|] eqn:Hm; try discriminate.
    destruct (Nat.eqb_spec (wg s) 0); [|discriminate].
    injection Hstep as <-. apply inv_join; assumption.
  - eapply inv_work; eassumption.
  - rewrite (inv_no_handoff args s i j Hinv) in Hstep. discriminate.
Qed.

Lemma inv_run args sched : forall s s',
  inv args s -> run sched s = Some s' -> inv args s'.
Proof.
  induction sched as [|a sched IH]; intros s s' Hinv Hrun; simpl in Hrun.
  - injection Hrun as <-. exact Hinv.
  - destruct (step a s) as [s1|] eqn:Hs; [|discriminate].
    eapply IH; [|exact Hrun]. eapply inv_step; eassumption.
Qed.

Lemma inv_run_benchmark args concurrency sched s :
  run_benchmark args concurrency sched = Some s -> inv args s.
Proof.
  unfold run_benchmark.
  destruct (benchmark_init args concurrency) as [s0|] eqn:H0; [|discriminate].
  intros Hrun. eapply inv_run; [|exact Hrun]. eapply inv_init; exact H0.
Qed.

Lemma sem_cap_run sched : forall s s',
  run sched s = Some s' -> sem_cap s' = sem_cap s.
Proof.
  induction sched as [|a sched IH]; intros s s' Hrun; simpl in Hrun.
  - injection Hrun as <-. reflexivity.
  - destruct (step a s) as [s1|] eqn:Hs; [|discriminate].
    rewrite (IH _ _ Hrun).
    destruct a as [| |i o|i j]; simpl in Hs.
    + destruct (main s) as [[|img rest]|]; try discriminate.
      injection Hs as <-. reflexivity.
    + destruct (main s) as [[|img rest]|]; try discriminate.
      destruct (wg s =? 0)%nat; [|discriminate].
      injection Hs as <-. reflexivity.
    + unfold work in Hs.
      destruct (workers s !! i) as [[img p]|]; [|discriminate].
      destruct p; try discriminate;
        repeat match type of Hs with
               | (if ?b then _ else _) = _ => destruct b
               | match ?x with _ => _ end = _ => destruct x
               end; try discriminate; injection Hs as <-; reflexivity.
    + unfold handoff in Hs.
      repeat match type of Hs with
             | (if ?b then _ else _) = _ => destruct b
             | match ?x with _ => _ end = _ => destruct x
             end; try discriminate; injection Hs as <-; reflexivity.
Qed.

(** *** No deadlock behind a gate with room *)

Lemma count_pc_none (f : pc -> bool) (ws : list (string * pc)) i img p :
  count_pc f ws = 0%nat -> ws !! i = Some (img, p) -> f p = false.
Proof.
  intros H0 Hi. destruct (f p) eqn:Hp; [|reflexivity].
  pose proof (count_pc_lookup f _ _ _ _ Hi Hp). lia.
Qed.

Lemma count_pc_le (f g : pc -> bool) (ws : list (string * pc)) :
  (forall p, f p = true -> g p = true) ->
  (count_pc f ws <= count_pc g ws)%nat.
Proof.
  intros Hfg. induction ws as [|[img p] ws IH]; [reflexivity|].
  rewrite !count_pc_cons. simpl.
  specialize (Hfg p). destruct (f p), (g p); simpl; try lia.
Qed.

Lemma progress args s :
  inv args s -> (0 < sem_cap s)%nat -> main s <> Joined ->
  exists a s', step a s = Some s'.
Proof.
  intros [Hsem Hcap Hwg Hmu Hargs Hres Hcar Hsnap Hpul] Hroom Hmain.
  destruct (main s) as [[|img rest]|] eqn:Hm; [| |congruence].
  2:{ exists Spawn. simpl. rewrite Hm. eauto. }
  destruct (Nat.eq_dec (wg s) 0%nat) as [H0|Hrun].
  { exists Join. simpl. rewrite Hm, H0. eauto. }
  destruct (Nat.eq_dec (count_pc unblocked (workers s)) 0%nat) as [Hu|Hu].
  2:{ destruct (count_pc_pos unblocked (workers s)) as (i & w & p & Hi & Hp);
        [lia|].
      exists (Work i quick_success). simpl. unfold work. rewrite Hi.
      destruct p; try discriminate; eauto.
      destruct (wg s); [congruence|eauto]. }
  destruct (Nat.eq_dec (count_pc at_release (workers s)) 0%nat) as [Hr|Hr].
  2:{ destruct (count_pc_pos at_release (workers s)) as (i & w & p & Hi & Hp);
        [lia|].
      exists (Work i quick_success). simpl. unfold work. rewrite Hi.
      destruct p; try discriminate.
      pose proof (count_pc_lookup holding _ _ _ _ Hi eq_refl).
      destruct (sem_len s); [lia|eauto]. }
  destruct (Nat.eq_dec (count_pc at_lock (workers s)) 0%nat) as [Hl|Hl].
  2:{ destruct (count_pc_pos at_lock (workers s)) as (i & w & p & Hi & Hp);
        [lia|].
      exists (Work i quick_success). simpl. unfold work. rewrite Hi.
      destruct p; try discriminate.
      assert (Hc : (count_pc critical (workers s) <= count_pc unblocked (workers s))%nat).
      { apply count_pc_le. intros [] H; try discriminate; reflexivity. }
      destruct (mu s); simpl in Hmu; [lia|eauto]. }
  destruct (count_pc_pos running (workers s)) as (i & w & p & Hi & Hp); [lia|].
  pose proof (count_pc_none _ _ _ _ _ Hu Hi) as Hpu.
  pose proof (count_pc_none _ _ _ _ _ Hr Hi) as Hpr.
  pose proof (count_pc_none _ _ _ _ _ Hl Hi) as Hpl.
  destruct p; try discriminate.
  assert (Hh : count_pc holding (workers s) = 0%nat).
  { destruct (Nat.eq_dec (count_pc holding (workers s)) 0%nat) as [|Hh]; [assumption|].
    destruct (count_pc_pos holding (workers s)) as (j & w' & q & Hj & Hq); [lia|].
    pose proof (count_pc_none _ _ _ _ _ Hu Hj).
    pose proof (count_pc_none _ _ _ _ _ Hr Hj).
    pose proof (count_pc_none _ _ _ _ _ Hl Hj).
    destruct q; discriminate. }
  exists (Work i quick_success). simpl. unfold work. rewrite Hi.
  destruct (Nat.ltb_spec (sem_len s) (sem_cap s)); [eauto|lia].
Qed.

(** *** Every run comes to an end *)

Lemma step_remaining a s s' :
  step a s = Some s' -> (remaining s' < remaining s)%nat.
Proof.
  intros Hs. destruct a as [| |i o|i j]; simpl in Hs.
  - destruct (main s) as [[|img rest]|] eqn:Hm; try discriminate.
    injection Hs as <-. unfold remaining. rewrite Hm. simpl.
    rewrite total_weight_app. simpl. lia.
  - destruct (main s) as [[|img rest]|] eqn:Hm; try discriminate.
    destruct (wg s =? 0)%nat; [|discriminate].
    injection Hs as <-. unfold remaining. rewrite Hm. simpl. lia.
  - unfold work in Hs.
    destruct (workers s !! i) as [[img p]|] eqn:Hi; [|discriminate].
    destruct p;
      repeat match type of Hs with
             | (if ?b then _ else _) = _ => destruct b
             | match ?x with _ => _ end = _ => destruct x
             end; try discriminate; injection Hs as <-;
      unfold remaining; simpl;
      match goal with |- context [<[i := (img, ?p')]> _] =>
        pose proof (total_weight_insert _ _ _ _ p' Hi) as Hw end;
      simpl in Hw; lia.
  - unfold handoff in Hs.
    destruct (sem_cap s =? 0)%nat; [|discriminate].
    destruct (workers s !! i) as [[a pa]|] eqn:Hi; [|discriminate].
    destruct pa; try discriminate.
    destruct (workers s !! j) as [[b pb]|] eqn:Hj; [|discriminate].
    destruct pb; try discriminate.
    injection Hs as <-. unfold remaining. simpl.
    assert (Hij : i <> j) by (intros ->; congruence).
    pose proof (total_weight_insert _ _ _ _ AtPull Hi) as Hwi.
    assert (Hj' : <[i := (a, AtPull)]> (workers s) !! j = Some (b, AtRelease))
      by (rewrite list_lookup_insert_ne; assumption).
    pose proof (total_weight_insert _ _ _ _ AtDone Hj') as Hwj.
    simpl in Hwi, Hwj. lia.
Qed.

Lemma run_remaining sched : forall s s',
  run sched s = Some s' -> (length sched + remaining s' <= remaining s)%nat.
Proof.
  induction sched as [|a sched IH]; intros s s' Hrun; simpl in Hrun.
  - injection Hrun as <-. simpl. lia.
  - destruct (step a s) as [s1|] eqn:Hs; [|discriminate].
    specialize (IH _ _ Hrun). apply step_remaining in Hs. simpl. lia.
Qed.

Lemma run_app sched sched' s s' s'' :
  run sched s = Some s' -> run sched' s' = Some s'' ->
  run (sched ++ sched') s = Some s''.
Proof.
  revert s. induction sched as [|a sched IH]; intros s Hrun Hrun'; simpl in *.
  - injection Hrun as ->. exact Hrun'.
  - destruct (step a s); [|discriminate]. eapply IH; eassumption.
Qed.

(** From every state that the invariant covers the run can be carried on to
    the far side of the barrier. *)
Lemma completion args : forall k s,
  (remaining s <= k)%nat -> inv args s -> (0 < sem_cap s)%nat ->
  exists rest s', run rest s = Some s' /\ main s' = Joined.
Proof.
  induction k as [|k IH]; intros s Hk Hinv Hroom.
  - exists [], s. split; [reflexivity|].
    unfold remaining in Hk. destruct (main s); [lia|reflexivity].
  - destruct (main s) as [rest|] eqn:Hm.
    2:{ exists [], s. split; [reflexivity|assumption]. }
    destruct (progress args s Hinv Hroom) as (a & s1 & Hs); [congruence|].
    pose proof (step_remaining _ _ _ Hs) as Hlt.
    destruct (IH s1) as (sched & s2 & Hrun & Hj).
    + lia.
    + eapply inv_step; eassumption.
    + rewrite (sem_cap_run [a] s s1); [assumption|]. simpl. rewrite Hs. reflexivity.
    + exists (a :: sched), s2. split; [|assumption].
      simpl. rewrite Hs. exact Hrun.
Qed.

(** *** The claims about the runner *)

Lemma run_benchmark_cap args concurrency sched s :
  run_benchmark args concurrency sched = Some s ->
  0 <= concurrency /\ sem_cap s = Z.to_nat concurrency.
Proof.
  unfold run_benchmark, benchmark_init.
  destruct (Z.ltb_spec concurrency 0); [discriminate|].
  intros Hrun. split; [assumption|].
  rewrite (sem_cap_run _ _ _ Hrun). reflexivity.
Qed.

Lemma run_benchmark_length args concurrency sched s :
  run_benchmark args concurrency sched = Some s ->
  (length sched <= 9 * length args + 1)%nat.
Proof.
  unfold run_benchmark, benchmark_init.
  destruct (concurrency <? 0); [discriminate|].
  intros Hrun. apply run_remaining in Hrun.
  unfold remaining in Hrun at 2. simpl in Hrun. lia.
Qed.

(** C1: whatever the images, the schedule and the outcome of each pull,
    once the main goroutine is past [wg.Wait()] every worker has run to its
    end and the shared slice holds one result of [pull] for each image of
    the input, in some order, so that nothing partial is ever returned; and
    with room in the gate the run never gets stuck short of the barrier, can
    always be carried on to its far side, and takes no more than
    [9 * len(args) + 1] steps. *)
Theorem benchmark_one_result_per_image args concurrency sched s :
  run_benchmark args concurrency sched = Some s ->
  (main s = Joined ->
     map Image (results s) ≡ₚ args
     /\ length (results s) = length args
     /\ Forall (fun r => exists o, r = pull (Image r) o) (results s)
     /\ length (workers s) = length args
     /\ Forall (fun w => snd w = Exited) (workers s))
  /\ (0 < concurrency ->
      (main s <> Joined -> exists a s', step a s = Some s')
      /\ (exists rest s', run rest s = Some s' /\ main s' = Joined))
  /\ (length sched <= 9 * length args + 1)%nat.
Proof.
  intros Hrun.
  pose proof (inv_run_benchmark _ _ _ _ Hrun) as Hinv.
  destruct (run_benchmark_cap _ _ _ _ Hrun) as [_ Hc].
  split; [|split].
  - intros Hj. destruct Hinv as [Hsem Hcap Hwg Hmu Hargs Hres Hcar Hsnap Hpul].
    rewrite Hj in Hargs. destruct Hargs as [Hargs H0].
    rewrite H0 in Hwg. symmetry in Hwg.
    rewrite (published_images_all _ Hwg), Hargs in Hres.
    split; [exact Hres|].
    split; [rewrite <- (length_map Image), Hres; reflexivity|].
    split; [exact Hpul|].
    split; [rewrite <- Hargs, length_map; reflexivity|].
    apply all_exited, Hwg.
  - intros Hpos.
    assert (Hroom : (0 < sem_cap s)%nat) by lia.
    split.
    + apply (progress args s Hinv Hroom).
    + apply (completion args (remaining s) s); [lia|assumption|assumption].
  - eapply run_benchmark_length; eassumption.
Qed.

Lemma benchmark_one_result_per_image_witness :
  exists s,
    run_benchmark two_images 1 one_by_one = Some s
    /\ main s = Joined
    /\ map Image (results s) ≡ₚ two_images
    /\ map Success (results s) = [false; true].
Proof.
  eexists. split; [vm_compute; reflexivity|].
  split; [reflexivity|].
  split; [|vm_compute; reflexivity].
  refine (proj1 (proj1 (benchmark_one_result_per_image two_images 1 one_by_one
                          _ _) _)).
  - vm_compute. reflexivity.
  - reflexivity.
Defined.

(** While a worker is inside the critical section, a second one is kept
    waiting at the mutex. *)
Example second_worker_waits_at_mutex :
  match run_benchmark two_images 2
          [Spawn; Spawn; Work 0 quick_success; Work 1 quick_success;
           Work 0 quick_success; Work 1 quick_success; Work 0 quick_success]
  with
  | Some s => (mu s, step (Work 1 quick_success) s)
  | None => (false, None)
  end = (true, None).
Proof. vm_compute. reflexivity. Qed.

(** C2: with a positive [concurrency], in every state that a schedule can
    reach, the number of pulls under way, and even the number of workers
    between [sem <- struct{}{}] and [<-sem], is at most [concurrency]. *)
Theorem benchmark_bounded_concurrency args concurrency sched s :
  0 < concurrency ->
  run_benchmark args concurrency sched = Some s ->
  Z.of_nat (active_pulls s) <= concurrency
  /\ Z.of_nat (count_pc holding (workers s)) <= concurrency.
Proof.
  intros Hpos Hrun.
  destruct (inv_run_benchmark _ _ _ _ Hrun) as [Hsem Hcap _ _ _ _ _ _ _].
  destruct (run_benchmark_cap _ _ _ _ Hrun) as [_ Hc].
  assert (Hle : (count_pc pulling (workers s) <= count_pc holding (workers s))%nat).
  { apply count_pc_le. intros [] H; try discriminate; reflexivity. }
  unfold active_pulls. lia.
Qed.

Lemma benchmark_bounded_concurrency_witness :
  exists s,
    run_benchmark five_images 2 two_in_flight = Some s
    /\ active_pulls s = 2%nat
    /\ Z.of_nat (active_pulls s) <= 2.
Proof.
  eexists. split; [vm_compute; reflexivity|].
  split; [vm_compute; reflexivity|].
  refine (proj1 (benchmark_bounded_concurrency five_images 2 two_in_flight
                   _ _ _)).
  - lia.
  - vm_compute. reflexivity.
Defined.

(** With two pulls under way behind a gate of two, a third worker is kept
    waiting at the gate. *)
Example third_worker_waits :
  match run_benchmark five_images 2 two_in_flight with
  | Some s => step (Work 1 quick_success) s
  | None => None
  end = None.
Proof. vm_compute. reflexivity. Qed.

(** *** A gate without room *)

Lemma all_at_acquire (ws : list (string * pc)) i img p :
  Forall (fun w => snd w = AtAcquire) ws -> ws !! i = Some (img, p) ->
  p = AtAcquire.
Proof. intros H Hi. exact (Forall_lookup_1 _ _ _ _ H Hi). Qed.

Lemma blocked_at_gate s i o : inv0 s -> work i o s = None.
Proof.
  intros (Hcap & Hall & _ & _). unfold work.
  destruct (workers s !! i) as [[img p]|] eqn:Hi; [|reflexivity].
  rewrite (all_at_acquire _ _ _ _ Hall Hi), Hcap.
  destruct (sem_len s); reflexivity.
Qed.

Lemma no_receiver s i j : inv0 s -> handoff i j s = None.
Proof.
  intros (Hcap & Hall & _ & _). unfold handoff. rewrite Hcap. simpl.
  destruct (workers s !! i) as [[a pa]|] eqn:Hi; [|reflexivity].
  destruct pa; try reflexivity.
  destruct (workers s !! j) as [[b pb]|] eqn:Hj; [|reflexivity].
  rewrite (all_at_acquire _ _ _ _ Hall Hj). reflexivity.
Qed.

Lemma inv0_step a s s' : inv0 s -> step a s = Some s' -> inv0 s'.
Proof.
  intros H0 Hs. destruct a as [| |i o|i j]; simpl in Hs.
  - destruct H0 as (Hcap & Hall & Hres & Hwg).
    destruct (main s) as [[|img rest]|]; try discriminate.
    injection Hs as <-. unfold inv0. simpl.
    repeat split; try assumption.
    + apply Forall_app. split; [assumption|]. repeat constructor.
    + rewrite length_app, Hwg. simpl. lia.
  - destruct (main s) as [[|img rest]|]; try discriminate.
    destruct (wg s =? 0)%nat; [|discriminate].
    injection Hs as <-. exact H0.
  - rewrite (blocked_at_gate s i o H0) in Hs. discriminate.
  - rewrite (no_receiver s i j H0) in Hs. discriminate.
Qed.

Lemma inv0_run sched : forall s s', inv0 s -> run sched s = Some s' -> inv0 s'.
Proof.
  induction sched as [|a sched IH]; intros s s' H0 Hrun; simpl in Hrun.
  - injection Hrun as <-. exact H0.
  - destruct (step a s) as [s1|] eqn:Hs; [|discriminate].
    eapply IH; [|exact Hrun]. eapply inv0_step; eassumption.
Qed.

Lemma inv0_run_benchmark args sched s :
  run_benchmark args 0 sched = Some s -> inv0 s.
Proof.
  unfold run_benchmark, benchmark_init. simpl.
  apply inv0_run. unfold inv0. simpl. repeat split. constructor.
Qed.

(** The dispatch loop alone: every image gets its worker. *)
Lemma run_dispatch rest : forall s,
  main s = Looping rest ->
  exists s',
    run (repeat Spawn (length rest)) s = Some s'
    /\ main s' = Looping []
    /\ length (workers s') = (length (workers s) + length rest)%nat.
Proof.
  induction rest as [|img rest IH]; intros s Hm.
  - exists s. simpl. repeat split; [assumption|lia].
  - simpl. rewrite Hm.
    match goal with |- context [run _ ?s1] => destruct (IH s1 eq_refl)
      as (s' & Hrun & Hm' & Hlen) end.
    exists s'. repeat split; try assumption.
    rewrite Hlen. simpl. rewrite length_app. simpl. lia.
Qed.

(** C5, as stated: with [concurrency <= 0] the command would be rejected
    before anything is dispatched.  With [concurrency = 0] the gate is made,
    and the worker of the first image is dispatched. *)
Lemma benchmark_zero_dispatches :
  benchmark_init ["ubuntu:latest"] 0 <> None
  /\ exists s,
       run_benchmark ["ubuntu:latest"] 0 [Spawn] = Some s
       /\ workers s = [("ubuntu:latest", AtAcquire)].
Proof.
  split; [vm_compute; discriminate|].
  eexists. split; vm_compute; reflexivity.
Qed.

(** C5, amended: the source validates nothing.  A negative [concurrency]
    makes the creation of the gate panic, before any worker is dispatched.
    With [concurrency = 0] the gate has no room: the dispatch loop starts a
    worker for every image, every worker stays before the gate, no pull
    starts and no result is appended, and once the main goroutine stands at
    [wg.Wait()] with at least one image nothing can move any more, so that
    the barrier is never passed. *)
Theorem benchmark_nonpositive_concurrency args concurrency :
  concurrency <= 0 ->
  (concurrency < 0 ->
     forall sched, run_benchmark args concurrency sched = None)
  /\ (concurrency = 0 ->
      (exists s,
         run_benchmark args concurrency (repeat Spawn (length args)) = Some s
         /\ main s = Looping []
         /\ length (workers s) = length args)
      /\ forall sched s,
           run_benchmark args concurrency sched = Some s ->
           Forall (fun w => snd w = AtAcquire) (workers s)
           /\ active_pulls s = 0%nat
           /\ results s = []
           /\ (args <> [] -> main s <> Joined)
           /\ (args <> [] -> main s = Looping [] ->
               forall a, step a s = None)).
Proof.
  intros _. split.
  - intros Hneg sched. unfold run_benchmark, benchmark_init.
    destruct (Z.ltb_spec concurrency 0); [reflexivity|lia].
  - intros ->. split.
    + unfold run_benchmark, benchmark_init. simpl.
      match goal with |- context [run _ ?s0] =>
        destruct (run_dispatch args s0 eq_refl) as (s' & Hrun & Hm & Hlen) end.
      exists s'. repeat split; assumption.
    + intros sched s Hrun.
      pose proof (inv0_run_benchmark _ _ _ Hrun) as H0.
      pose proof (inv_run_benchmark _ _ _ _ Hrun) as Hinv.
      destruct H0 as (Hcap & Hall & Hres & Hwg).
      assert (Hjoin : args <> [] -> main s <> Joined).
      { intros Hne Hj. destruct Hinv as [_ _ _ _ Hargs _ _ _ _].
        rewrite Hj in Hargs. destruct Hargs as [Hargs Hz].
        rewrite Hwg in Hz. apply length_zero_iff_nil in Hz.
        rewrite Hz in Hargs. simpl in Hargs. congruence. }
      split; [exact Hall|].
      split.
      { unfold active_pulls.
        destruct (Nat.eq_dec (count_pc pulling (workers s)) 0%nat) as [|Hp];
          [assumption|].
        destruct (count_pc_pos pulling (workers s)) as (i & w & p & Hi & Hp');
          [lia|].
        rewrite (all_at_acquire _ _ _ _ Hall Hi) in Hp'. discriminate. }
      split; [exact Hres|].
      split; [exact Hjoin|].
      intros Hne Hm a.
      assert (H0 : inv0 s) by (repeat split; assumption).
      destruct a as [| |i o|i j]; simpl.
      * rewrite Hm. reflexivity.
      * rewrite Hm.
        destruct (Nat.eqb_spec (wg s) 0) as [Hz|]; [|reflexivity].
        exfalso. destruct Hinv as [_ _ _ _ Hargs _ _ _ _].
        rewrite Hm in Hargs. rewrite List.app_nil_r in Hargs.
        rewrite Hwg in Hz. apply length_zero_iff_nil in Hz.
        rewrite Hz in Hargs. simpl in Hargs. congruence.
      * apply blocked_at_gate, H0.
      * apply no_receiver, H0.
Qed.

Lemma benchmark_nonpositive_concurrency_witness :
  run_benchmark ["ubuntu:latest"] (-1) [] = None
  /\ exists s,
       run_benchmark ["ubuntu:latest"] 0 [Spawn] = Some s
       /\ active_pulls s = 0%nat
       /\ step (Work 0 quick_success) s = None.
Proof.
  split.
  - refine (proj1 (benchmark_nonpositive_concurrency ["ubuntu:latest"] (-1) _)
              _ []); lia.
  - eexists. split; [vm_compute; reflexivity|].
    split; [reflexivity|].
    refine (proj2 (proj2 (proj2 (proj2
              (proj2 (proj2 (benchmark_nonpositive_concurrency
                               ["ubuntu:latest"] 0 _) _)
                 [Spawn] _ _)))) _ _ (Work 0 quick_success)).
    + lia.
    + reflexivity.
    + vm_compute. reflexivity.
    + discriminate.
    + reflexivity.
Defined.
